(** * Weak keys of the optimizer's logical properties

    A verification development for [pkg/sql/opt/props/weak_keys.go]:
    the [WeakKeys] slice of column sets and its four methods
    [ContainsSubsetOf], [Add], [Copy] and [Combine].

    [WeakKeys] is a Go slice, so the methods are embedded over an explicit
    store of backing arrays: a slice header names an array, an offset into
    it, a length and a capacity, and two headers may name the same array.
    [Add] writes into the backing array in place and [append]s, exactly as
    the source does. *)

From stdpp Require Import base option list numbers.
From stdpp Require strings pretty.

(** ** The column-set primitive *)

(** [opt.ColSet] is declared outside this package.  The methods below use
    exactly one operation of it, the method [SubsetOf], and Go's zero value
    [opt.ColSet{}], which is the empty set and is what [make] and [append]
    fill fresh storage with. *)
Class ColSetOps (ColSet : Type) := {
  SubsetOf : ColSet → ColSet → bool;
  emptyColSet : ColSet;
}.

(** The Go runtime decides how much spare capacity [append] allocates when a
    slice is full; the language only promises room for the appended element.
    [growslice c] is the capacity the runtime proposes for a full slice of
    capacity [c]. *)
Class GrowPolicy := growslice : nat → nat.

(** ** Slices over a store of backing arrays *)

(** A slice header.  Arrays are named by their index in the store;
    [ptr = None] is Go's [nil] slice. *)
Record slice := Slice {
  ptr : option nat;
  off : nat;
  len : nat;
  cap : nat;
}.

Definition nil_slice : slice := Slice None 0 0 0.

(** The store: one list of elements per allocated array. *)
Abbreviation heap ColSet := (list (list ColSet)).

Section Model.
Context {ColSet : Type} `{!ColSetOps ColSet} `{!GrowPolicy}.

(** [type WeakKeys []opt.ColSet] *)
Definition WeakKeys := slice.

(** Computations read and write the store and may panic ([None]). *)
Definition M (A : Type) : Type :=
  heap ColSet → option (A * heap ColSet).

Definition ret {A} (a : A) : M A := λ h, Some (a, h).
Definition bind {A B} (m : M A) (f : A → M B) : M B :=
  λ h, match m h with
       | Some (a, h') => f a h'
       | None => None
       end.
Definition panic {A} : M A := λ _, None.

#[local] Notation "x <- m ;; k" := (bind m (λ x, k))
  (at level 100, m at next level, right associativity, only parsing).

(** The backing array of a header, and the elements a header shows. *)
Definition array (h : heap ColSet) (s : slice) : list ColSet :=
  match ptr s with
  | Some p => default [] (h !! p)
  | None => []
  end.

Definition elems (h : heap ColSet) (s : slice) : list ColSet :=
  take (len s) (drop (off s) (array h s)).

Definition set_array (s : slice) (a : list ColSet) (h : heap ColSet)
    : heap ColSet :=
  match ptr s with
  | Some p => <[p := a]> h
  | None => h
  end.

(** [s[i]] as an expression: bounds-checked against the length. *)
Definition load (s : slice) (i : nat) : M ColSet := λ h,
  if decide (i < len s) then
    match array h s !! (off s + i) with
    | Some v => Some (v, h)
    | None => None
    end
  else None.

(** [s[i] = v]: bounds-checked against the length. *)
Definition store (s : slice) (i : nat) (v : ColSet) : M unit := λ h,
  if decide (i < len s) then
    Some (tt, set_array s (<[off s + i := v]> (array h s)) h)
  else None.

(** [s[:n]]: the bound is the capacity. *)
Definition reslice (s : slice) (n : nat) : M slice :=
  if decide (n ≤ cap s) then ret (Slice (ptr s) (off s) n (cap s))
  else panic.

(** A new array holding [a]. *)
Definition alloc (a : list ColSet) : M nat := λ h,
  Some (length h, h ++ [a]).

(** [make(WeakKeys, n, c)] *)
Definition make (n c : nat) : M slice :=
  if decide (n ≤ c) then
    p <- alloc (replicate c emptyColSet) ;;
    ret (Slice (Some p) 0 n c)
  else panic.

(** [copy(dst, src)]: moves [min(len(dst), len(src))] elements, as if the
    source were read in full before the destination is written. *)
Definition copy (dst src : slice) : M nat := λ h,
  let n := len dst `min` len src in
  let data := take n (elems h src) in
  let a := array h dst in
  Some (n, set_array dst
             (take (off dst) a ++ data ++ drop (off dst + n) a) h).

(** [append(s, v)]: in place when there is spare capacity, otherwise into
    a new array that receives the old elements. *)
Definition append (s : slice) (v : ColSet) : M slice := λ h,
  if decide (len s < cap s) then
    Some (Slice (ptr s) (off s) (S (len s)) (cap s),
          set_array s (<[off s + len s := v]> (array h s)) h)
  else
    let c := S (len s) `max` growslice (cap s) in
    (p <- alloc (elems h s ++ v :: replicate (c - S (len s)) emptyColSet) ;;
     ret (Slice (Some p) 0 (S (len s)) c)) h.

(** ** The methods *)

(** [for _, existing := range wk { if existing.SubsetOf(weakKey) { return
    true } }; return false], with [n] iterations left at index [i]. *)
Fixpoint ContainsSubsetOf_range (wk : WeakKeys) (weakKey : ColSet)
    (n i : nat) : M bool :=
  match n with
  | 0 => ret false
  | S n' =>
      existing <- load wk i ;;
      if SubsetOf existing weakKey then ret true
      else ContainsSubsetOf_range wk weakKey n' (S i)
  end.

Definition ContainsSubsetOf (wk : WeakKeys) (weakKey : ColSet) : M bool :=
  ContainsSubsetOf_range wk weakKey (len wk) 0.

(** The loop of [Add], with [n] iterations left at index [i].  The result
    [None] is the early [return]; [Some insert] is the value of [insert]
    when the loop runs to its end. *)
Fixpoint Add_range (wk : WeakKeys) (new : ColSet) (n i insert : nat)
    : M (option nat) :=
  match n with
  | 0 => ret (Some insert)
  | S n' =>
      existing <- load wk i ;;
      if SubsetOf existing new then ret None
      else if negb (SubsetOf new existing) then
        _ <- (if decide (insert ≠ i) then store wk insert existing
              else ret tt) ;;
        Add_range wk new n' (S i) (S insert)
      else Add_range wk new n' (S i) insert
  end.

(** [func (wk *WeakKeys) Add(new opt.ColSet)]: takes the header stored in
    [*wk] and returns the header stored there when the call ends. *)
Definition Add (new : ColSet) (wk : WeakKeys) : M WeakKeys :=
  r <- Add_range wk new (len wk) 0 0 ;;
  match r with
  | None => ret wk
  | Some insert =>
      s <- reslice wk insert ;;
      append s new
  end.

Definition Copy (wk : WeakKeys) : M WeakKeys :=
  res <- make (len wk) (len wk) ;;
  _ <- copy res wk ;;
  ret res.

(** [for _, k := range other { res.Add(k) }] *)
Fixpoint Combine_range (other : WeakKeys) (n i : nat) (res : WeakKeys)
    : M WeakKeys :=
  match n with
  | 0 => ret res
  | S n' =>
      k <- load other i ;;
      res' <- Add k res ;;
      Combine_range other n' (S i) res'
  end.

Definition Combine (wk other : WeakKeys) : M WeakKeys :=
  if decide (len wk = 0) then ret other
  else if decide (len other = 0) then ret wk
  else
    res <- make (len wk) (len wk + len other) ;;
    _ <- copy res wk ;;
    Combine_range other (len other) 0 res.

End Model.

(** The headers held by the variables of client code, by variable number. *)
Abbreviation vars := (list WeakKeys).

Section Specification.
Context {ColSet : Type} `{!ColSetOps ColSet} `{!GrowPolicy}.

(** ** Well-formed headers *)

(** What Go guarantees of every slice value: the length is within the
    capacity, the capacity window lies inside the backing array, and a
    non-nil header names an allocated array. *)
Definition wf (h : heap ColSet) (s : slice) : Prop :=
  len s ≤ cap s ∧
  off s + cap s ≤ length (array h s) ∧
  ∀ p, ptr s = Some p → p < length h.

Definition wfb (h : heap ColSet) (s : slice) : bool :=
  (len s <=? cap s) && (off s + cap s <=? length (array h s)) &&
  match ptr s with
  | Some p => p <? length h
  | None => true
  end.

(** ** The antichain invariant *)

(** No element is a subset of an element at another position; when
    [SubsetOf] is reflexive, no key is stored twice either. *)
Definition antichain (l : list ColSet) : Prop :=
  ∀ i j a b, l !! i = Some a → l !! j = Some b → i ≠ j →
    SubsetOf a b = false.

Fixpoint antichainb (l : list ColSet) : bool :=
  match l with
  | [] => true
  | a :: l' =>
      forallb (λ b, negb (SubsetOf a b) && negb (SubsetOf b a)) l'
      && antichainb l'
  end.

(** [x] is a minimal element of [U] under the subset relation. *)
Definition minimal (U : list ColSet) (x : ColSet) : Prop :=
  x ∈ U ∧ ∀ y, y ∈ U → SubsetOf y x = true → y = x.

(** ** The elements [Add] leaves behind *)

(** The scan of [Add] over the elements [l]: the survivors it has
    compacted so far, and whether it stopped at an element that is a
    subset of [new]. *)
Fixpoint scan_elems (new : ColSet) (l : list ColSet)
    : list ColSet * bool :=
  match l with
  | [] => ([], false)
  | existing :: l' =>
      if SubsetOf existing new then ([], true)
      else
        let '(kept, redundant) := scan_elems new l' in
        (if SubsetOf new existing then kept else existing :: kept,
         redundant)
  end.

(** On the early return the survivors have overwritten the front of the
    storage and the rest is as it was; otherwise the storage is cut after
    the survivors and [new] is appended. *)
Definition Add_elems (new : ColSet) (l : list ColSet) : list ColSet :=
  let '(kept, redundant) := scan_elems new l in
  if redundant then kept ++ drop (length kept) l
  else kept ++ [new].

(** The elements of [Combine]: the receiver's, with [Add] applied for
    each element of [other] in turn, unless the receiver is empty. *)
Definition Combine_elems (l other : list ColSet) : list ColSet :=
  match l with
  | [] => other
  | _ => foldl (λ acc k, Add_elems k acc) l other
  end.

(** ** Footprints *)

(** [h'] is [h] with the contents of the array of [s] possibly changed
    (never its size) and with new arrays possibly allocated. *)
Definition modifies (s : slice) (h h' : heap ColSet) : Prop :=
  length h ≤ length h' ∧
  ∀ q a, h !! q = Some a →
    ∃ a', h' !! q = Some a' ∧ length a' = length a ∧
          (ptr s ≠ Some q → a' = a).

(** Every array of [h0] is still there in [h], with the same contents. *)
Definition preserved (h0 h : heap ColSet) : Prop :=
  ∀ q a, h0 !! q = Some a → h !! q = Some a.

(** The header [s] names an array allocated at or after [L]. *)
Definition allocated_from (L : nat) (s : slice) : Prop :=
  ∃ p, ptr s = Some p ∧ L ≤ p.

(** ** Sequences of calls *)

(** [Add] called with each key of [ks] in turn on the same variable. *)
Fixpoint Add_all (ks : list ColSet) (wk : WeakKeys) : M WeakKeys :=
  match ks with
  | [] => ret wk
  | k :: ks' => bind (Add k wk) (Add_all ks')
  end.

(** Calls of [Add] on two variables [a] and [b] in any interleaving:
    [(true, k)] is [a.Add(k)] and [(false, k)] is [b.Add(k)]. *)
Fixpoint Add_interleaved (calls : list (bool * ColSet))
    (a b : WeakKeys) : M (WeakKeys * WeakKeys) :=
  match calls with
  | [] => ret (a, b)
  | (true, k) :: calls' =>
      bind (Add k a) (λ a', Add_interleaved calls' a' b)
  | (false, k) :: calls' =>
      bind (Add k b) (λ b', Add_interleaved calls' a b')
  end.

(** The keys of the calls made on one of the two variables. *)
Definition keys_of (side : bool) (calls : list (bool * ColSet))
    : list ColSet :=
  snd <$> filter (λ c, c.1 = side) calls.

(** ** Client code *)

(** Code that uses the type through its methods only.  Variables are
    numbered; each is declared [var x WeakKeys], so it holds nil until it
    is assigned.  Nothing is copied when a header is assigned: after
    [x = y.Combine(z)] the variable [x] may hold a header of the array of
    [y] or of [z]. *)
Inductive stmt :=
| SNil (x : nat)                 (* x = nil *)
| SAdd (x : nat) (new : ColSet)  (* x.Add(new) *)
| SCopy (x y : nat)              (* x = y.Copy() *)
| SCombine (x y z : nat).        (* x = y.Combine(z) *)

Definition var (ρ : vars) (x : nat) : WeakKeys :=
  default nil_slice (ρ !! x).

Definition set_var (x : nat) (v : WeakKeys) (ρ : vars) : vars :=
  <[x := v]> (ρ ++ replicate (S x - length ρ) nil_slice).

Definition exec (c : stmt) (ρ : vars) : M vars :=
  match c with
  | SNil x => ret (set_var x nil_slice ρ)
  | SAdd x new =>
      bind (Add new (var ρ x)) (λ wk', ret (set_var x wk' ρ))
  | SCopy x y =>
      bind (Copy (var ρ y)) (λ res, ret (set_var x res ρ))
  | SCombine x y z =>
      bind (Combine (var ρ y) (var ρ z)) (λ res, ret (set_var x res ρ))
  end.

Fixpoint run (prog : list stmt) (ρ : vars) : M vars :=
  match prog with
  | [] => ret ρ
  | c :: prog' => bind (exec c ρ) (run prog')
  end.

(** Every variable holds a well-formed header that shows an antichain. *)
Definition all_antichains (ρ : vars) (h : heap ColSet) : Prop :=
  ∀ x, wf h (var ρ x) ∧ antichain (elems h (var ρ x)).

Definition all_antichainsb (ρ : vars) (h : heap ColSet) : bool :=
  forallb (λ wk, wfb h wk && antichainb (elems h wk)) ρ.

(** No other variable holds a header of the array of [x]. *)
Definition owns (ρ : vars) (x : nat) : bool :=
  match ptr (var ρ x) with
  | None => true
  | Some p =>
      forallb (λ y, bool_decide (y = x) ||
                    negb (bool_decide (ptr (var ρ y) = Some p)))
              (seq 0 (length ρ))
  end.

(** In the run of [prog], every [Add] is made on a variable that owns its
    array at that moment. *)
Fixpoint exclusive (prog : list stmt) (ρ : vars) (h : heap ColSet)
    : bool :=
  match prog with
  | [] => true
  | c :: prog' =>
      match c with
      | SAdd x _ => owns ρ x
      | _ => true
      end &&
      match exec c ρ h with
      | Some (ρ', h') => exclusive prog' ρ' h'
      | None => true
      end
  end.

End Specification.

(** ** A column set to run the methods on *)

(** Modelled from the spec: [opt.ColSet] is declared in package [opt], not
    in this file; the design notes (section 9) describe it as "a small
    bitset ... with O(1) ... subset testing".  Column [i] is bit [i] of a
    natural number, and [a] is a subset of [b] when [a & b == a]. *)
Definition bitset_ColSet : ColSetOps N := {|
  SubsetOf a b := N.eqb (N.land a b) a;
  emptyColSet := 0%N;
|}.

(** The set of the given columns. *)
Definition cols (l : list nat) : N :=
  foldr (λ i s, N.lor (N.shiftl 1 (N.of_nat i)) s) 0%N l.

(** A runtime that doubles the capacity of a full slice. *)
Definition doubling : GrowPolicy := λ c, 2 * c.

(** ** Stored keys to run the methods on *)

(** One array holding the keys [{1,2}] and [{3}], and the slice of both. *)
Definition store_12_3 : heap N := [[cols [1; 2]; cols [3]]].
Definition keys_12_3 : WeakKeys := Slice (Some 0) 0 2 2.

(** Two arrays, one key each: [{1}] and [{2}]. *)
Definition store_1_2 : heap N := [[cols [1]]; [cols [2]]].
Definition keys_first : WeakKeys := Slice (Some 0) 0 1 1.
Definition keys_second : WeakKeys := Slice (Some 1) 0 1 1.

(** Two arrays, one key each: [{1,2}] and [{1}]. *)
Definition store_12_1 : heap N := [[cols [1; 2]]; [cols [1]]].

(** [make(WeakKeys, 0, 1)]: an empty slice that is not nil. *)
Definition store_spare : heap N := [[0%N]].
Definition keys_spare : WeakKeys := Slice (Some 0) 0 0 1.

(** The keys [{1,2}], [{5}] and [{1,3}] in one array. *)
Definition store_12_5_13 : heap N := [[cols [1; 2]; cols [5]; cols [1; 3]]].
Definition keys_12_5_13 : WeakKeys := Slice (Some 0) 0 3 3.

(** The keys [{1,2}], [{3}] and [{1}] in one array: not an antichain. *)
Definition store_12_3_1 : heap N := [[cols [1; 2]; cols [3]; cols [1]]].
Definition keys_12_3_1 : WeakKeys := Slice (Some 0) 0 3 3.

(** ** Client code to run *)

(** [x.Add({1,2}); x.Add({5}); x.Add({1,3}); y = z.Combine(x);
    y.Add({1})], with [x], [y], [z] the variables 0, 1, 2 and [z] never
    assigned: [y] receives the header of [x]. *)
Definition client_alias : list (@stmt N) :=
  [SAdd 0 (cols [1; 2]); SAdd 0 (cols [5]); SAdd 0 (cols [1; 3]);
   SCombine 1 2 0; SAdd 1 (cols [1])].

(** The same with [y = y.Copy()] before [y.Add({1})], and then
    [x.Add({7})]. *)
Definition client_copy : list (@stmt N) :=
  [SAdd 0 (cols [1; 2]); SAdd 0 (cols [5]); SAdd 0 (cols [1; 3]);
   SCombine 1 2 0; SCopy 1 1; SAdd 1 (cols [1]); SAdd 0 (cols [7])].

(** * The lexer of the SQL parser

    The second file of the sources: the [lexer] that hands the scanner's
    tokens to the generated parser, with its one-token lookahead, and the
    error state it keeps. *)

Module Lexer.
Import stdpp.strings.

(** ** Go values *)

(** A Go [string] is a sequence of bytes. *)
Abbreviation gostring := (list Ascii.ascii).

Definition lit (s : String.string) : gostring :=
  String.list_ascii_of_string s.

Arguments lit : simpl never.

Definition newline : Ascii.ascii := Ascii.ascii_of_nat 10.
Definition space : Ascii.ascii := Ascii.ascii_of_nat 32.
Definition quote : Ascii.ascii := Ascii.ascii_of_nat 34.

(** Go's [int] has 64 bits; arithmetic wraps around. *)
Definition maxInt : Z := 2 ^ 63 - 1.
Definition wrap_int (x : Z) : Z := (x + 2 ^ 63) `mod` 2 ^ 64 - 2 ^ 63.
Definition int_add (a b : Z) : Z := wrap_int (a + b).
Definition int_sub (a b : Z) : Z := wrap_int (a - b).

(** [len(s)] *)
Definition golen {A} (s : list A) : Z := Z.of_nat (length s).

(** [s[i]]: panics ([None]) outside the bounds. *)
Definition goindex {A} (s : list A) (i : Z) : option A :=
  if decide (0 ≤ i)%Z then s !! Z.to_nat i else None.

(** [s[lo:]] and [s[:hi]]: panic outside [0 .. len(s)]. *)
Definition slice_from {A} (s : list A) (lo : Z) : option (list A) :=
  if decide (0 ≤ lo ≤ golen s)%Z then Some (drop (Z.to_nat lo) s) else None.

Definition slice_to {A} (s : list A) (hi : Z) : option (list A) :=
  if decide (0 ≤ hi ≤ golen s)%Z then Some (take (Z.to_nat hi) s) else None.

(** [strings.IndexByte(s, c)]: the index of the first [c] in [s], or -1. *)
Fixpoint IndexByte (s : gostring) (c : Ascii.ascii) : Z :=
  match s with
  | [] => -1
  | x :: s' =>
      if decide (x = c) then 0
      else let r := IndexByte s' c in
           if decide (r = -1)%Z then -1 else (r + 1)%Z
  end.

(** [strings.LastIndexByte(s, c)]: the index of the last [c] in [s], or
    -1. *)
Fixpoint LastIndexByte (s : gostring) (c : Ascii.ascii) : Z :=
  match s with
  | [] => -1
  | x :: s' =>
      let r := LastIndexByte s' c in
      if decide (r = -1)%Z then (if decide (x = c) then 0 else -1)
      else (r + 1)%Z
  end.

(** [strings.Repeat(s, count)]: panics when [count] is negative or the
    length of the result overflows. *)
Definition Repeat (s : gostring) (count : Z) : option gostring :=
  if decide (0 ≤ count ∧ golen s * count ≤ maxInt)%Z
  then Some (concat (replicate (Z.to_nat count) s))
  else None.

(** ** What the generated parser declares *)

(** The token identifiers the lexer names; they are constants of the
    generated parser. *)
Class TokenIDs := {
  NOT : Z; WITH : Z; AS : Z;
  OF : Z;
  BETWEEN : Z; IN : Z; LIKE : Z; ILIKE : Z; SIMILAR : Z;
  TIME : Z; ORDINALITY : Z;
  NOT_LA : Z; WITH_LA : Z; AS_LA : Z;
  ERROR : Z; HELPTOKEN : Z;
}.

(** [sqlSymType]: the lexer reads and writes the fields [id], [pos] and
    [str]; [union] stands for what else the generated struct carries. *)
Record sqlSymType (SymUnion : Type) := SqlSym {
  id : Z;
  pos : Z;
  str : gostring;
  union : SymUnion;
}.
Arguments SqlSym {_} _ _ _ _.
Arguments id {_} _.
Arguments pos {_} _.
Arguments str {_} _.
Arguments union {_} _.

(** Go's zero value of a type. *)
Class ZeroValue (A : Type) := zero_value : A.

(** [HelpMessage] is declared elsewhere in the package; [SetHelp] reads its
    fields [Command] and [Function] and calls its method [String]. *)
Class HelpMessageOps (HelpMessage : Type) := {
  Command : HelpMessage → gostring;
  Function : HelpMessage → gostring;
  HelpMessage_String : HelpMessage → gostring;
}.

(** [fmt.Sprintf("%d", n)], the decimal form of an [int]. *)
Class FormatInt := Sprintf_d : Z → gostring.

(** ** The lexer state *)

(** [parseErr] holds parsing error state. *)
Record parseErr := ParseErr {
  msg : gostring;
  hint : gostring;
  detail : gostring;
  unimplementedFeature : gostring;
}.

(** [new(parseErr)] *)
Definition new_parseErr : parseErr := ParseErr [] [] [] [].

(** [lexer].  The field [in] is written [in_]; [lastError] is a pointer
    that only the lexer holds, [None] when nil. *)
Record lexer (SymUnion TInt TSerial Statement : Type) := Lexer {
  in_ : gostring;
  tokens : list (sqlSymType SymUnion);
  nakedIntType : TInt;
  nakedSerialType : TSerial;
  lastPos : Z;
  stmts : list Statement;
  lastError : option parseErr;
}.
Arguments Lexer {_ _ _ _} _ _ _ _ _ _ _.
Arguments in_ {_ _ _ _} _.
Arguments tokens {_ _ _ _} _.
Arguments nakedIntType {_ _ _ _} _.
Arguments nakedSerialType {_ _ _ _} _.
Arguments lastPos {_ _ _ _} _.
Arguments stmts {_ _ _ _} _.
Arguments lastError {_ _ _ _} _.

Section Methods.
Context {SymUnion TInt TSerial Statement HelpMessage : Type}.
Context `{!TokenIDs} `{!ZeroValue SymUnion} `{!FormatInt}.
Context `{!HelpMessageOps HelpMessage}.

Abbreviation lexer := (lexer SymUnion TInt TSerial Statement).
Abbreviation sqlSymType := (sqlSymType SymUnion).

Definition set_lastPos (l : lexer) (p : Z) : lexer :=
  Lexer (in_ l) (tokens l) (nakedIntType l) (nakedSerialType l) p
        (stmts l) (lastError l).

Definition set_lastError (l : lexer) (e : option parseErr) : lexer :=
  Lexer (in_ l) (tokens l) (nakedIntType l) (nakedSerialType l) (lastPos l)
        (stmts l) e.

(** [func (l *lexer) init(sql, tokens, nakedIntType, nakedSerialType)] *)
Definition init (l : lexer) (sql : gostring) (toks : list sqlSymType)
    (nakedInt : TInt) (nakedSerial : TSerial) : lexer :=
  Lexer sql toks nakedInt nakedSerial (-1) [] None.

(** The tokens [EOF] stands for: [sqlSymType{id: 0, pos: len(l.in), str:
    "EOF"}] *)
Definition eof_token (l : lexer) : sqlSymType :=
  SqlSym 0 (golen (in_ l)) (lit "EOF") zero_value.

(** The inner [switch] of [Lex]: the identifier to report for a token
    [id] that is followed by a token [nextID]. *)
Definition lookahead (id nextID : Z) : Z :=
  if decide (id = AS) then
    (if decide (nextID = OF) then AS_LA else id)
  else if decide (id = NOT) then
    (if decide (nextID = BETWEEN ∨ nextID = IN ∨ nextID = LIKE ∨
                nextID = ILIKE ∨ nextID = SIMILAR)
     then NOT_LA else id)
  else if decide (id = WITH) then
    (if decide (nextID = TIME ∨ nextID = ORDINALITY) then WITH_LA else id)
  else id.

(** [func (l *lexer) Lex(lval *sqlSymType) int]: takes what [lval] points
    to and returns the result, what [lval] points to afterwards, and the
    lexer. *)
Definition Lex (lval : sqlSymType) (l : lexer)
    : option (Z * sqlSymType * lexer) :=
  let l := set_lastPos l (int_add (lastPos l) 1) in
  if decide (golen (tokens l) ≤ lastPos l)%Z then
    Some (0%Z,
          SqlSym 0 (golen (in_ l)) (lit "EOF") (union lval),
          l)
  else
    lval ← goindex (tokens l) (lastPos l);
    if decide (id lval = NOT ∨ id lval = WITH ∨ id lval = AS) then
      nextID ←
        (if decide (int_add (lastPos l) 1 < golen (tokens l))%Z then
           id <$> goindex (tokens l) (int_add (lastPos l) 1)
         else Some 0%Z);
      let lval :=
        SqlSym (lookahead (id lval) nextID) (pos lval) (str lval)
               (union lval) in
      Some (id lval, lval, l)
    else Some (id lval, lval, l).

(** [func (l *lexer) lastToken() sqlSymType] *)
Definition lastToken (l : lexer) : option sqlSymType :=
  if decide (lastPos l < 0)%Z then Some (SqlSym 0 0 [] zero_value)
  else if decide (golen (tokens l) ≤ lastPos l)%Z then Some (eof_token l)
  else goindex (tokens l) (lastPos l).

(** [func (l *lexer) initLastErr()] *)
Definition initLastErr (l : lexer) : lexer :=
  match lastError l with
  | None => set_lastError l (Some new_parseErr)
  | Some _ => l
  end.

(** An assignment through [l.lastError]: panics when the pointer is nil. *)
Definition update_lastError (f : parseErr → parseErr) (l : lexer)
    : option lexer :=
  match lastError l with
  | Some e => Some (set_lastError l (Some (f e)))
  | None => None
  end.

Definition set_msg (v : gostring) (e : parseErr) : parseErr :=
  ParseErr v (hint e) (detail e) (unimplementedFeature e).
Definition set_hint (v : gostring) (e : parseErr) : parseErr :=
  ParseErr (msg e) v (detail e) (unimplementedFeature e).
Definition set_detail (v : gostring) (e : parseErr) : parseErr :=
  ParseErr (msg e) (hint e) v (unimplementedFeature e).
Definition set_unimplementedFeature (v : gostring) (e : parseErr)
    : parseErr :=
  ParseErr (msg e) (hint e) (detail e) v.

(** [func (l *lexer) Error(e string)] *)
Definition Error (e : gostring) (l : lexer) : option lexer :=
  let l := initLastErr l in
  lastTok ← lastToken l;
  l ← (if decide (id lastTok = ERROR) then
         update_lastError (set_msg (str lastTok)) l
       else
         update_lastError
           (set_msg (e ++ lit " at or near " ++ [quote] ++
                     str lastTok ++ [quote])) l);
  rest ← slice_from (in_ l) (pos lastTok);
  let i := IndexByte rest newline in
  let i := if decide (i = -1)%Z then golen (in_ l)
           else int_add i (pos lastTok) in
  before ← slice_to (in_ l) (pos lastTok);
  let j := int_add (LastIndexByte before newline) 1 in
  shown ← slice_to (in_ l) i;
  let buf := lit "source SQL:" ++ [newline] ++ shown ++ [newline] in
  spaces ← Repeat (lit " ") (int_sub (pos lastTok) j);
  let buf := buf ++ spaces ++ lit "^" in
  l ← update_lastError (set_detail buf) l;
  l ← update_lastError (set_unimplementedFeature []) l;
  update_lastError (set_hint []) l.

(** [func (l *lexer) Unimplemented(feature string)] *)
Definition Unimplemented (feature : gostring) (l : lexer) : option lexer :=
  l ← Error (lit "unimplemented") l;
  update_lastError (set_unimplementedFeature feature) l.

Definition issue_url : gostring :=
  lit "See: https://github.com/cockroachdb/cockroach/issues/".

(** [func (l *lexer) UnimplementedWithIssue(issue int)] *)
Definition UnimplementedWithIssue (issue : Z) (l : lexer) : option lexer :=
  l ← Error (lit "unimplemented") l;
  l ← update_lastError
        (set_unimplementedFeature (lit "#" ++ Sprintf_d issue)) l;
  update_lastError (set_hint (issue_url ++ Sprintf_d issue)) l.

(** [func (l *lexer) UnimplementedWithIssueDetail(issue int, detail
    string)] *)
Definition UnimplementedWithIssueDetail (issue : Z) (detail : gostring)
    (l : lexer) : option lexer :=
  l ← Error (lit "unimplemented") l;
  l ← update_lastError
        (set_unimplementedFeature
           (lit "#" ++ Sprintf_d issue ++ lit "." ++ detail)) l;
  update_lastError (set_hint (issue_url ++ Sprintf_d issue)) l.

(** [func (l *lexer) populateHelpMsg(msg string)] *)
Definition populateHelpMsg (m : gostring) (l : lexer) : option lexer :=
  let l := initLastErr l in
  l ← update_lastError (set_unimplementedFeature []) l;
  l ← update_lastError (set_msg (lit "help token in input")) l;
  update_lastError (set_hint m) l.

(** [func (l *lexer) SetHelp(msg HelpMessage)] *)
Definition SetHelp (m : HelpMessage) (l : lexer) : option lexer :=
  lastTok ← lastToken l;
  if decide (id lastTok = HELPTOKEN) then
    populateHelpMsg (HelpMessage_String m) l
  else
    let l := initLastErr l in
    if decide (Command m ≠ []) then
      update_lastError (set_hint (lit "try \h " ++ Command m)) l
    else
      update_lastError (set_hint (lit "try \hf " ++ Function m)) l.

(** The two indices [Error] computes for a token at [p]: where the line of
    the token ends and where it starts. *)
Definition line_end (input : gostring) (p : Z) : Z :=
  let i := IndexByte (drop (Z.to_nat p) input) newline in
  if decide (i = -1)%Z then golen input else int_add i p.

Definition line_start (input : gostring) (p : Z) : Z :=
  int_add (LastIndexByte (take (Z.to_nat p) input) newline) 1.

(** The message [Error] records for the last token. *)
Definition error_msg (e : gostring) (lastTok : sqlSymType) : gostring :=
  if decide (id lastTok = ERROR) then str lastTok
  else e ++ lit " at or near " ++ [quote] ++ str lastTok ++ [quote].

(** [Lex] called [n] times on the same [lval]: the results in order, with
    what [lval] holds and the lexer at the end. *)
Fixpoint Lex_times (n : nat) (lval : sqlSymType) (l : lexer)
    : option (list Z * sqlSymType * lexer) :=
  match n with
  | O => Some ([], lval, l)
  | S n' =>
      '(r, lval, l) ← Lex lval l;
      '(rs, lval, l) ← Lex_times n' lval l;
      Some (r :: rs, lval, l)
  end.

(** What the parser is to see of a token list: each identifier after the
    lookahead at its successor, 0 standing for no successor. *)
Fixpoint lookahead_ids (toks : list sqlSymType) : list Z :=
  match toks with
  | [] => []
  | t :: toks' =>
      lookahead (id t) (match toks' with [] => 0%Z | t' :: _ => id t' end)
      :: lookahead_ids toks'
  end.

End Methods.
End Lexer.

(** ** A lexer to run the methods on *)

Module LexerExample.
Import stdpp.strings stdpp.pretty.
Import Lexer.

(** Identifiers in the range a generated parser uses. *)
Definition token_ids : TokenIDs := {|
  NOT := 57346; WITH := 57347; AS := 57348; OF := 57349;
  BETWEEN := 57350; IN := 57351; LIKE := 57352; ILIKE := 57353;
  SIMILAR := 57354; TIME := 57355; ORDINALITY := 57356;
  NOT_LA := 57357; WITH_LA := 57358; AS_LA := 57359;
  ERROR := 57360; HELPTOKEN := 57361;
|}.
Definition IDENT : Z := 57362.
Definition SELECT : Z := 57363.
Definition WHERE : Z := 57364.

Definition no_payload : ZeroValue unit := tt.
Definition decimal : FormatInt := λ n, lit (pretty n).

(** A help message with a command, a function and a text. *)
Definition help_ops : HelpMessageOps (gostring * gostring * gostring) := {|
  Command m := m.1.1;
  Function m := m.1.2;
  HelpMessage_String m := m.2;
|}.
Definition help_select : gostring * gostring * gostring :=
  (lit "SELECT", [], lit "Command: SELECT").

(** Two lines of SQL and their tokens. *)
Definition sql : gostring :=
  lit "SELECT a" ++ [newline] ++ lit "WHERE a NOT IN b".

Definition sql_tokens : list (sqlSymType unit) :=
  [SqlSym SELECT 0 (lit "SELECT") tt; SqlSym IDENT 7 (lit "a") tt;
   SqlSym WHERE 9 (lit "WHERE") tt; SqlSym IDENT 15 (lit "a") tt;
   SqlSym 57346 17 (lit "NOT") tt; SqlSym 57351 21 (lit "IN") tt;
   SqlSym IDENT 24 (lit "b") tt].

(** The lexer on them with [lastPos] at [p]. *)
Definition lexer_at (p : Z) : lexer unit unit unit unit :=
  Lexer sql sql_tokens tt tt p [] None.

(** Tokens that end in the keyword NOT. *)
Definition lexer_ending_in_NOT : lexer unit unit unit unit :=
  Lexer (lit "a NOT")
        [SqlSym IDENT 0 (lit "a") tt; SqlSym 57346 2 (lit "NOT") tt]
        tt tt 0 [] None.

(** A token placed beyond the end of the input. *)
Definition lexer_outside : lexer unit unit unit unit :=
  Lexer (lit "a") [SqlSym IDENT 5 (lit "x") tt] tt tt 0 [] None.

(** The help token as the last token. *)
Definition lexer_help : lexer unit unit unit unit :=
  Lexer (lit "SELECT ??")
        [SqlSym SELECT 0 (lit "SELECT") tt; SqlSym 57361 7 (lit "??") tt]
        tt tt 1 [] None.

Definition lval0 : sqlSymType unit := SqlSym 0 0 [] tt.

End LexerExample.

(** * Proofs *)

(** ** The store and the loop of [Add] *)

Section Store.
Context {ColSet : Type} `{!ColSetOps ColSet} `{!GrowPolicy}.
Implicit Types (h : heap ColSet) (s wk : slice) (l a : list ColSet).

(** *** The store *)

Lemma set_array_id h s : set_array s (array h s) h = h.
Proof.
  unfold set_array, array. destruct (ptr s) as [p|]; [|done].
  destruct (h !! p) as [a|] eqn:E; simpl.
  - by apply list_insert_id.
  - apply list_insert_ge. by apply lookup_ge_None.
Qed.

Lemma array_set_array h s a p :
  ptr s = Some p → p < length h → array (set_array s a h) s = a.
Proof.
  intros E Hp. unfold set_array, array. rewrite E.
  by rewrite list_lookup_insert_eq.
Qed.

Lemma set_array_twice h s a a' :
  set_array s a (set_array s a' h) = set_array s a h.
Proof.
  unfold set_array. destruct (ptr s); [|done]. apply list_insert_insert_eq.
Qed.

Lemma length_set_array h s a : length (set_array s a h) = length h.
Proof. unfold set_array. destruct (ptr s); [|done]. apply length_insert. Qed.

Lemma array_lookup_Some h s i v :
  array h s !! i = Some v →
  ∃ p, ptr s = Some p ∧ p < length h ∧ h !! p = Some (array h s).
Proof.
  unfold array. destruct (ptr s) as [p|]; [|done].
  destruct (h !! p) as [a|] eqn:E; [|done]. simpl. intros _.
  exists p. split_and!; [done| |done]. by eapply lookup_lt_Some.
Qed.

Lemma scan_elems_length new l : length (scan_elems new l).1 ≤ length l.
Proof.
  induction l as [|e l IH]; simpl; [done|].
  destruct (SubsetOf e new); simpl; [lia|].
  destruct (scan_elems new l) as [k r]. simpl in *.
  destruct (SubsetOf new e); simpl; lia.
Qed.

(** *** The loop of [Add] *)

(** The loop, started at index [i] with [insert] survivors already in
    place, agrees with [scan_elems] on the elements still to visit: it
    returns early exactly when the scan does, and it leaves the array with
    the new survivors written from [insert] on and nothing else changed.
    Reads are never disturbed by the writes, which stay behind the index. *)
Lemma Add_range_spec wk new n : ∀ i insert h,
  i + n = len wk → insert ≤ i →
  off wk + len wk ≤ length (array h wk) →
  let a := array h wk in
  let kr := scan_elems new (take n (drop (off wk + i) a)) in
  Add_range wk new n i insert h =
    Some (if kr.2 then None else Some (insert + length kr.1),
          set_array wk (take (off wk + insert) a ++ kr.1 ++
                        drop (off wk + insert + length kr.1) a) h).
Proof.
  induction n as [|n IH]; intros i insert h Hn Hins Hlen; simpl.
  - rewrite !Nat.add_0_r, take_drop. by rewrite set_array_id.
  - destruct (array h wk !! (off wk + i)) as [e|] eqn:Ee; last first.
    { apply lookup_ge_None in Ee. lia. }
    rewrite (drop_S _ _ _ Ee). simpl.
    unfold bind at 1, load. rewrite decide_True by lia. rewrite Ee.
    destruct (SubsetOf e new) eqn:Esub; simpl.
    { unfold ret. rewrite !Nat.add_0_r, take_drop. by rewrite set_array_id. }
    destruct (array_lookup_Some _ _ _ _ Ee) as (p & Ep & Hp & Harr).
    destruct (SubsetOf new e) eqn:Edom; simpl.
    + rewrite IH by lia. rewrite <- Nat.add_succ_r.
      destruct (scan_elems new _) as [k r]. done.
    + assert (Hstore :
        (if decide (insert ≠ i) then store wk insert e else ret tt) h
        = Some (tt, set_array wk (<[off wk + insert := e]> (array h wk)) h)).
      { destruct (decide (insert ≠ i)) as [Hne|Heq].
        - unfold store. rewrite decide_True by lia. done.
        - assert (insert = i) as -> by lia. unfold ret.
          rewrite list_insert_id by done. by rewrite set_array_id. }
      unfold bind at 1. rewrite Hstore.
      set (h1 := set_array wk _ h).
      assert (Ha1 : array h1 wk = <[off wk + insert := e]> (array h wk)).
      { unfold h1. by eapply array_set_array. }
      rewrite IH; [| lia | lia | rewrite Ha1, length_insert; done].
      rewrite Ha1. rewrite <- Nat.add_succ_r.
      rewrite (drop_insert_lt _ (off wk + S i)) by lia.
      destruct (scan_elems new _) as [k r]. simpl.
      unfold h1. rewrite set_array_twice.
      assert (Hlt : off wk + insert < length (array h wk)) by lia.
      f_equal. f_equal; [destruct r; simpl; f_equal; lia|].
      f_equal.
      rewrite Nat.add_succ_r.
      rewrite (take_S_r _ _ e) by (by apply list_lookup_insert_eq).
      rewrite take_insert_ge by lia.
      rewrite drop_insert_lt by lia.
      rewrite <- app_assoc. simpl. by rewrite (Nat.add_succ_r _ (length k)).
Qed.

(** *** Footprints *)

Lemma modifies_trans s h1 h2 h3 :
  modifies s h1 h2 → modifies s h2 h3 → modifies s h1 h3.
Proof.
  intros [L1 M1] [L2 M2]. split; [lia|]. intros q a E.
  destruct (M1 _ _ E) as (a' & E' & Hl' & Hs').
  destruct (M2 _ _ E') as (a'' & E'' & Hl'' & Hs'').
  exists a''. split_and!; [done|congruence|].
  intros Hne. rewrite Hs'', Hs'; done.
Qed.

Lemma modifies_set_array s h a :
  length a = length (array h s) → modifies s h (set_array s a h).
Proof.
  intros Hl. split; [by rewrite length_set_array|]. intros q b E.
  unfold set_array, array in *. destruct (ptr s) as [p|]; [|by exists b].
  destruct (decide (p = q)) as [->|Hne].
  - exists a. rewrite E in Hl. simpl in Hl.
    rewrite list_lookup_insert_eq by (by eapply lookup_lt_Some). done.
  - exists b. rewrite list_lookup_insert_ne by done.
    by split_and!.
Qed.

Lemma modifies_alloc s h a : modifies s h (h ++ [a]).
Proof.
  split; [rewrite length_app; lia|]. intros q b E. exists b.
  rewrite lookup_app_l by (by eapply lookup_lt_Some). done.
Qed.

Lemma array_modifies s h h' t :
  modifies s h h' → wf h t →
  length (array h' t) = length (array h t) ∧
  (ptr t ≠ ptr s → array h' t = array h t).
Proof.
  intros [L Mo] (_ & _ & Hp). unfold array.
  destruct (ptr t) as [q|] eqn:Eq; [|done].
  specialize (Hp q eq_refl).
  destruct (lookup_lt_is_Some_2 _ _ Hp) as [a Ea].
  destruct (Mo _ _ Ea) as (a' & Ea' & Hl & Hs).
  rewrite Ea, Ea'. simpl. split; [done|].
  intros Hne. apply Hs. congruence.
Qed.

Lemma wf_modifies s h h' t : modifies s h h' → wf h t → wf h' t.
Proof.
  intros Hm Hwf. destruct (array_modifies _ _ _ _ Hm Hwf) as [Hl _].
  destruct Hm as [L _]. destruct Hwf as (H1 & H2 & H3).
  split_and!; [done|lia|]. intros p Ep. specialize (H3 p Ep). lia.
Qed.

Lemma elems_modifies s h h' t :
  modifies s h h' → wf h t → ptr t ≠ ptr s → elems h' t = elems h t.
Proof.
  intros Hm Hwf Hne. unfold elems.
  destruct (array_modifies _ _ _ _ Hm Hwf) as [_ ->]; done.
Qed.

(** *** Well-formed headers *)

Lemma length_elems h s : wf h s → length (elems h s) = len s.
Proof.
  intros (H1 & H2 & _). unfold elems.
  rewrite length_take, length_drop. lia.
Qed.

Lemma array_set_array_wf h s a :
  wf h s → (ptr s = None → a = []) → array (set_array s a h) s = a.
Proof.
  intros (_ & _ & Hp) Hnil. destruct (ptr s) as [p|] eqn:E.
  - eapply array_set_array; eauto.
  - unfold array. rewrite E. symmetry. by apply Hnil.
Qed.

Lemma array_nil h s : ptr s = None → array h s = [].
Proof. unfold array. by intros ->. Qed.

Lemma set_array_ptr s t a h :
  ptr s = ptr t → set_array s a h = set_array t a h.
Proof. unfold set_array. by intros ->. Qed.

Lemma array_ptr s t h : ptr s = ptr t → array h s = array h t.
Proof. unfold array. by intros ->. Qed.

(** *** [Add] *)

(** [Add] on a well-formed header never panics; the header it leaves is
    well formed and shows [Add_elems]; only the array of [wk] was written;
    and the result is either in the storage of [wk] or, when [wk] was full,
    in an array allocated by [append]. *)
Lemma Add_spec h wk new :
  wf h wk →
  ∃ wk' h',
    Add new wk h = Some (wk', h') ∧
    wf h' wk' ∧
    elems h' wk' = Add_elems new (elems h wk) ∧
    modifies wk h h' ∧
    ((ptr wk' = ptr wk ∧ off wk' = off wk ∧ cap wk' = cap wk ∧
      length h' = length h) ∨
     (ptr wk' = Some (length h) ∧ length h' = S (length h) ∧
      len wk' = S (cap wk))) ∧
    ((scan_elems new (elems h wk)).2 = true → wk' = wk).
Proof.
  intros Hwf. pose proof Hwf as (Hlc & Hcap & Hptr).
  unfold Add, bind at 1.
  rewrite Add_range_spec by lia. simpl.
  rewrite !Nat.add_0_r. fold (elems h wk).
  pose proof (scan_elems_length new (elems h wk)) as Hk.
  rewrite length_elems in Hk by done.
  unfold Add_elems.
  destruct (scan_elems new (elems h wk)) as [k r] eqn:Escan. simpl in *.
  set (a := array h wk) in *.
  set (a1 := take (off wk) a ++ k ++ drop (off wk + length k) a).
  assert (Hla1 : length a1 = length a).
  { unfold a1. rewrite !length_app, length_take, length_drop. lia. }
  assert (Hnil : ptr wk = None → a1 = []).
  { intros E. apply nil_length_inv. rewrite Hla1. unfold a.
    by rewrite array_nil. }
  assert (Harr1 : array (set_array wk a1 h) wk = a1).
  { by apply array_set_array_wf. }
  assert (Hm1 : modifies wk h (set_array wk a1 h)).
  { by apply modifies_set_array. }
  assert (Hd : drop (off wk) a1 = k ++ drop (off wk + length k) a).
  { unfold a1. rewrite drop_app_length'; [done|].
    rewrite length_take. lia. }
  destruct r.
  - (* early return *)
    eexists _, _. split; [reflexivity|].
    split_and!; [by eapply wf_modifies| |done|left; split_and!; try done|done].
    + unfold elems at 1. rewrite Harr1, Hd.
      rewrite take_app, take_ge by lia. f_equal.
      rewrite <- drop_drop, take_drop_commute. unfold elems, a.
      do 2 f_equal. lia.
    + by rewrite length_set_array.
  - unfold bind at 1, reslice. rewrite decide_True by lia.
    unfold ret at 1. unfold append. simpl.
    destruct (decide (length k < cap wk)) as [Hlt|Hge].
    + (* append in place *)
      rewrite (set_array_ptr _ wk) by done.
      rewrite (array_ptr _ wk) by done.
      rewrite Harr1, set_array_twice.
      set (a2 := <[off wk + length k := new]> a1).
      assert (Hla2 : length a2 = length a)
        by (unfold a2; by rewrite length_insert).
      assert (Harr2 : array (set_array wk a2 h) wk = a2).
      { apply array_set_array_wf; [done|]. intros E.
        apply nil_length_inv. rewrite Hla2. unfold a. by rewrite array_nil. }
      eexists _, _. split; [reflexivity|].
      split_and!; [| |by apply modifies_set_array|
                   left; simpl; split_and!; try done|done].
      * split_and!; simpl; [lia| |].
        -- rewrite (array_ptr _ wk), Harr2 by done. lia.
        -- intros p Ep. rewrite length_set_array. by apply Hptr.
      * unfold elems. simpl.
        rewrite (array_ptr _ wk), Harr2 by done. unfold a2.
        rewrite drop_insert_ge by lia. rewrite Hd.
        replace (off wk + length k - off wk) with (length k + 0) by lia.
        rewrite insert_app_r.
        rewrite take_app, take_ge by lia. f_equal.
        replace (S (length k) - length k) with 1 by lia.
        destruct (drop (off wk + length k) a) eqn:Edrop; [|done].
        apply (f_equal length) in Edrop. rewrite length_drop in Edrop.
        simpl in Edrop. lia.
      * by rewrite length_set_array.
    + (* append into a new array *)
      unfold bind, alloc, ret. simpl.
      assert (length k = cap wk) as Hfull by lia.
      assert (Hel : elems (set_array wk a1 h)
                      {| ptr := ptr wk; off := off wk;
                         len := length k; cap := cap wk |} = k).
      { unfold elems. simpl.
        rewrite (array_ptr _ wk), Harr1, Hd by done.
        by rewrite take_app_length. }
      rewrite Hel, length_set_array.
      set (c := S (length k) `max` growslice (cap wk)).
      eexists _, _. split; [reflexivity|].
      assert (Hnew : array (set_array wk a1 h ++
                      [k ++ new :: replicate (c - S (length k)) emptyColSet])
                      {| ptr := Some (length h); off := 0;
                         len := S (length k); cap := c |}
                     = k ++ new :: replicate (c - S (length k)) emptyColSet).
      { unfold array. simpl.
        rewrite lookup_app_r by (rewrite length_set_array; lia).
        rewrite length_set_array, Nat.sub_diag. done. }
      split_and!; [| | |right; simpl; split_and!; try done|done].
      * split_and!; simpl; [lia| |].
        -- rewrite Hnew. rewrite length_app. simpl.
           rewrite length_replicate. lia.
        -- intros p [= <-]. rewrite length_app, length_set_array. simpl. lia.
      * unfold elems. rewrite Hnew. simpl.
        rewrite drop_0, (cons_middle new), app_assoc.
        apply take_app_length'. rewrite length_app. simpl. lia.
      * eapply modifies_trans; [done|]. apply modifies_alloc.
      * rewrite length_app, length_set_array. simpl. lia.
      * lia.
Qed.
End Store.

(** ** Antichains and the elements [Add] leaves *)

Section Elements.
Context {ColSet : Type} `{!ColSetOps ColSet} `{!GrowPolicy}.
Implicit Types (h : heap ColSet) (s wk : slice) (l a : list ColSet).

(** *** Antichains *)

Lemma antichain_nil : antichain (@nil ColSet).
Proof. intros i j a b Hi. by rewrite lookup_nil in Hi. Qed.

Lemma antichain_cons x l :
  antichain (x :: l) ↔
  (∀ y, y ∈ l → SubsetOf x y = false ∧ SubsetOf y x = false) ∧
  antichain l.
Proof.
  split.
  - intros Hac. split.
    + intros y [j Hj]%list_elem_of_lookup. split.
      * by apply (Hac 0 (S j)).
      * by apply (Hac (S j) 0).
    + intros i j a b Hi Hj Hne. apply (Hac (S i) (S j)); auto.
  - intros [Hx Hl] i j a b Hi Hj Hne.
    destruct i as [|i], j as [|j]; simpl in *; simplify_eq.
    + apply Hx. by eapply list_elem_of_lookup_2.
    + apply Hx. by eapply list_elem_of_lookup_2.
    + apply (Hl i j); auto.
Qed.

Lemma antichain_app l1 l2 :
  antichain (l1 ++ l2) ↔
  antichain l1 ∧ antichain l2 ∧
  ∀ x y, x ∈ l1 → y ∈ l2 →
    SubsetOf x y = false ∧ SubsetOf y x = false.
Proof.
  induction l1 as [|x l1 IH]; simpl.
  - split.
    + intros Hl2. split_and!; [apply antichain_nil|done|].
      intros x y Hx. by apply elem_of_nil in Hx.
    + by intros (_ & Hl2 & _).
  - rewrite !antichain_cons, IH. split.
    + intros (Hx & Hl1 & Hl2 & Hc). split_and!; try done.
      * intros y Hy. apply Hx. apply elem_of_app. by left.
      * intros x' y [->|Hx']%elem_of_cons Hy.
        -- apply Hx. apply elem_of_app. by right.
        -- by apply Hc.
    + intros ((Hx & Hl1) & Hl2 & Hc). split_and!; try done.
      * intros y [Hy|Hy]%elem_of_app; [by apply Hx|].
        apply Hc; [by left|done].
      * intros x' y Hx' Hy. apply Hc; [by right|done].
Qed.

Lemma antichain_singleton x : antichain [x].
Proof.
  apply antichain_cons. split; [|apply antichain_nil].
  intros y Hy. by apply elem_of_nil in Hy.
Qed.

Lemma antichain_filter (P : ColSet → Prop) `{!∀ x, Decision (P x)} l :
  antichain l → antichain (filter P l).
Proof.
  induction l as [|x l IH]; [done|].
  rewrite antichain_cons. intros [Hx Hl].
  rewrite filter_cons. destruct (decide (P x)); [|by apply IH].
  apply antichain_cons. split; [|by apply IH].
  intros y [_ Hy]%list_elem_of_filter. by apply Hx.
Qed.

Lemma antichainb_spec l : antichainb l = true ↔ antichain l.
Proof.
  induction l as [|x l IH]; simpl.
  - split; [intros _; apply antichain_nil|done].
  - rewrite andb_true_iff, antichain_cons, IH, forallb_forall.
    split; intros [Hx Hl]; (split; [|done]).
    + intros y Hy%list_elem_of_In. specialize (Hx y Hy).
      apply andb_true_iff in Hx as [H1 H2].
      by rewrite negb_true_iff in H1, H2.
    + intros y Hy%list_elem_of_In. destruct (Hx y Hy) as [-> ->]. done.
Qed.

Lemma filter_all (P : ColSet → Prop) `{!∀ x, Decision (P x)} l :
  Forall P l → filter P l = l.
Proof.
  induction 1 as [|x l Hx _ IH]; [done|].
  by rewrite filter_cons_True, IH.
Qed.

(** *** The scan over the elements *)

(** No stored key is a subset of [new]: the scan runs to its end and keeps
    the keys of which [new] is not a subset. *)
Lemma scan_elems_not_redundant new l :
  (∀ e, e ∈ l → SubsetOf e new = false) →
  scan_elems new l = (filter (λ e, SubsetOf new e = false) l, false).
Proof.
  induction l as [|e l IH]; intros Hl; simpl; [done|].
  rewrite (Hl e) by left. rewrite IH by (intros; apply Hl; by right).
  destruct (SubsetOf new e) eqn:E; simpl.
  - rewrite filter_cons_False by (by rewrite E). done.
  - rewrite filter_cons_True by done. done.
Qed.

(** The scan stops at the first stored key [e] that is a subset of [new];
    the keys before it that are not supersets of [new] were compacted. *)
Lemma scan_elems_redundant new l1 e l2 :
  (∀ x, x ∈ l1 → SubsetOf x new = false) →
  SubsetOf e new = true →
  scan_elems new (l1 ++ e :: l2) =
    (filter (λ x, SubsetOf new x = false) l1, true).
Proof.
  induction l1 as [|x l1 IH]; intros Hl He; simpl.
  - by rewrite He.
  - rewrite (Hl x) by left. rewrite IH; [|intros; apply Hl; by right|done].
    destruct (SubsetOf new x) eqn:E; simpl.
    + rewrite filter_cons_False by (by rewrite E). done.
    + rewrite filter_cons_True by done. done.
Qed.

Lemma first_subset_split new l e :
  e ∈ l → SubsetOf e new = true →
  ∃ l1 e' l2, l = l1 ++ e' :: l2 ∧ SubsetOf e' new = true ∧
              ∀ x, x ∈ l1 → SubsetOf x new = false.
Proof.
  induction l as [|y l IH]; intros Hin He; [by apply elem_of_nil in Hin|].
  destruct (SubsetOf y new) eqn:Ey.
  - exists [], y, l. split_and!; [done..|].
    intros x Hx. by apply elem_of_nil in Hx.
  - apply elem_of_cons in Hin as [->|Hin]; [congruence|].
    destruct (IH Hin He) as (l1 & e' & l2 & -> & He' & Hl1).
    exists (y :: l1), e', l2. split_and!; [done..|].
    intros x [->|Hx]%elem_of_cons; auto.
Qed.

Lemma scan_elems_redundant_iff new l :
  (scan_elems new l).2 = true ↔ ∃ e, e ∈ l ∧ SubsetOf e new = true.
Proof.
  split.
  - induction l as [|e l IH]; simpl; [done|].
    destruct (SubsetOf e new) eqn:E.
    + intros _. exists e. split; [by left|done].
    + destruct (scan_elems new l) as [k r]. simpl. intros ->.
      destruct IH as (e' & Hin & He'); [done|].
      exists e'. split; [by right|done].
  - intros (e & Hin & He).
    destruct (first_subset_split _ _ _ Hin He)
      as (l1 & e' & l2 & -> & He' & Hl1).
    by rewrite scan_elems_redundant.
Qed.

Section ElementLaws.
Hypothesis SubsetOf_refl : ∀ a : ColSet, SubsetOf a a = true.
Hypothesis SubsetOf_trans : ∀ a b c : ColSet,
  SubsetOf a b = true → SubsetOf b c = true → SubsetOf a c = true.
Hypothesis SubsetOf_antisym : ∀ a b : ColSet,
  SubsetOf a b = true → SubsetOf b a = true → a = b.

(** In an antichain nothing before a subset of [new] can be a superset
    of [new], so the scan has not moved anything when it stops. *)
Lemma scan_elems_redundant_antichain new l1 e l2 :
  antichain (l1 ++ e :: l2) →
  (∀ x, x ∈ l1 → SubsetOf x new = false) →
  SubsetOf e new = true →
  scan_elems new (l1 ++ e :: l2) = (l1, true).
Proof using SubsetOf_trans.
  intros Hac Hl1 He. rewrite scan_elems_redundant by done.
  f_equal. apply filter_all. apply Forall_forall. intros x Hx%list_elem_of_In.
  apply antichain_app in Hac as (_ & _ & Hc).
  destruct (Hc x e Hx) as [_ Hex]; [by left|].
  destruct (SubsetOf new x) eqn:E; [|done].
  by rewrite (SubsetOf_trans _ _ _ He E) in Hex.
Qed.

(** A redundant key leaves an antichain as it is. *)
Lemma scan_elems_redundant_take new l e :
  antichain l → e ∈ l → SubsetOf e new = true →
  ∃ n, n < length l ∧ scan_elems new l = (take n l, true).
Proof using SubsetOf_trans.
  intros Hac Hin He.
  destruct (first_subset_split _ _ _ Hin He)
    as (l1 & e' & l2 & -> & He' & Hl1).
  exists (length l1). split; [rewrite length_app; simpl; lia|].
  rewrite scan_elems_redundant_antichain by done.
  by rewrite take_app_length.
Qed.

Lemma Add_elems_redundant new l e :
  antichain l → e ∈ l → SubsetOf e new = true → Add_elems new l = l.
Proof using SubsetOf_trans.
  intros Hac Hin He.
  destruct (scan_elems_redundant_take new l e) as (n & Hn & E);
    [done..|].
  unfold Add_elems. rewrite E.
  rewrite length_take_le by lia. apply take_drop.
Qed.

Lemma Add_elems_not_redundant new l :
  (∀ e, e ∈ l → SubsetOf e new = false) →
  Add_elems new l = filter (λ e, SubsetOf new e = false) l ++ [new].
Proof.
  intros Hl. unfold Add_elems. by rewrite scan_elems_not_redundant.
Qed.

Lemma Add_elems_cases new l :
  (∃ e, e ∈ l ∧ SubsetOf e new = true) ∨
  (∀ e, e ∈ l → SubsetOf e new = false).
Proof.
  destruct (scan_elems new l).2 eqn:E.
  - left. by apply scan_elems_redundant_iff.
  - right. intros e Hin. destruct (SubsetOf e new) eqn:He; [|done].
    assert ((scan_elems new l).2 = true) as Hr
      by (apply scan_elems_redundant_iff; eauto).
    congruence.
Qed.

Lemma Add_elems_antichain new l :
  antichain l → antichain (Add_elems new l).
Proof using SubsetOf_trans.
  intros Hac. destruct (Add_elems_cases new l) as [(e & Hin & He)|Hl].
  - by rewrite (Add_elems_redundant new l e).
  - rewrite Add_elems_not_redundant by done.
    apply antichain_app. split_and!.
    + by apply antichain_filter.
    + apply antichain_singleton.
    + intros x y [Hx Hin]%list_elem_of_filter ->%list_elem_of_singleton.
      split; [by apply Hl|done].
Qed.

Lemma foldl_Add_elems_antichain l ks :
  antichain l → antichain (foldl (λ acc k, Add_elems k acc) l ks).
Proof using SubsetOf_trans.
  revert l. induction ks as [|k ks IH]; intros l Hac; simpl; [done|].
  apply IH. by apply Add_elems_antichain.
Qed.

Lemma Combine_elems_antichain l other :
  antichain l → antichain other → antichain (Combine_elems l other).
Proof using SubsetOf_trans.
  intros Hl Ho. unfold Combine_elems. destruct l; [done|].
  by apply foldl_Add_elems_antichain.
Qed.

(** [Add] keeps a set of keys that covers everything offered so far. *)
Lemma Add_elems_covers new l (U : list ColSet) :
  antichain l →
  (∀ x, x ∈ l → x ∈ U) →
  (∀ u, u ∈ U → ∃ r, r ∈ l ∧ SubsetOf r u = true) →
  (∀ x, x ∈ Add_elems new l → x ∈ U ++ [new]) ∧
  (∀ u, u ∈ U ++ [new] →
     ∃ r, r ∈ Add_elems new l ∧ SubsetOf r u = true).
Proof using SubsetOf_trans SubsetOf_refl.
  intros Hac Hsub Hcov.
  destruct (Add_elems_cases new l) as [(e & Hin & He)|Hl].
  - rewrite (Add_elems_redundant new l e) by done. split.
    + intros x Hx. apply elem_of_app. left. by apply Hsub.
    + intros u [Hu| ->%list_elem_of_singleton]%elem_of_app; eauto.
  - rewrite Add_elems_not_redundant by done. split.
    + intros x [[_ Hx]%list_elem_of_filter|Hx]%elem_of_app;
        apply elem_of_app; [left; by apply Hsub|by right].
    + intros u [Hu| ->%list_elem_of_singleton]%elem_of_app.
      * destruct (Hcov u Hu) as (r & Hr & Hru).
        destruct (SubsetOf new r) eqn:E.
        -- exists new. split; [apply elem_of_app; right; by left|].
           by eapply SubsetOf_trans.
        -- exists r. split; [|done]. apply elem_of_app. left.
           by apply list_elem_of_filter.
      * exists new. split; [apply elem_of_app; right; by left|done].
Qed.

Lemma foldl_Add_elems_covers ks : ∀ l (U : list ColSet),
  antichain l →
  (∀ x, x ∈ l → x ∈ U) →
  (∀ u, u ∈ U → ∃ r, r ∈ l ∧ SubsetOf r u = true) →
  let res := foldl (λ acc k, Add_elems k acc) l ks in
  (∀ x, x ∈ res → x ∈ U ++ ks) ∧
  (∀ u, u ∈ U ++ ks → ∃ r, r ∈ res ∧ SubsetOf r u = true).
Proof using SubsetOf_trans SubsetOf_refl.
  induction ks as [|k ks IH]; intros l U Hac Hsub Hcov; simpl.
  - rewrite app_nil_r. done.
  - destruct (Add_elems_covers k l U Hac Hsub Hcov) as [H1 H2].
    specialize (IH (Add_elems k l) (U ++ [k])
                   (Add_elems_antichain _ _ Hac) H1 H2).
    simpl in IH. rewrite <- app_assoc in IH. done.
Qed.

(** An antichain that lies inside [U] and covers [U] is the set of
    minimal elements of [U]. *)
Lemma covering_antichain_minimal l (U : list ColSet) :
  antichain l →
  (∀ x, x ∈ l → x ∈ U) →
  (∀ u, u ∈ U → ∃ r, r ∈ l ∧ SubsetOf r u = true) →
  ∀ x, x ∈ l ↔ minimal U x.
Proof using SubsetOf_trans SubsetOf_antisym.
  intros Hac Hsub Hcov x. split.
  - intros Hx. split; [by apply Hsub|]. intros y Hy Hyx.
    destruct (Hcov y Hy) as (r & Hr & Hry).
    assert (SubsetOf r x = true) as Hrx by (by eapply SubsetOf_trans).
    apply list_elem_of_lookup in Hr as [i Hi].
    apply list_elem_of_lookup in Hx as [j Hj].
    destruct (decide (i = j)) as [->|Hne].
    + assert (r = x) as -> by congruence. by apply SubsetOf_antisym.
    + by rewrite (Hac i j r x Hi Hj Hne) in Hrx.
  - intros [Hx Hmin]. destruct (Hcov x Hx) as (r & Hr & Hrx).
    by rewrite <- (Hmin r (Hsub r Hr) Hrx).
Qed.

Lemma Combine_elems_minimal l other :
  antichain l → antichain other →
  ∀ x, x ∈ Combine_elems l other ↔ minimal (l ++ other) x.
Proof using SubsetOf_trans SubsetOf_antisym SubsetOf_refl.
  intros Hl Ho. unfold Combine_elems. destruct l as [|y l].
  - simpl. apply covering_antichain_minimal; [done..|].
    intros u Hu. eauto.
  - apply covering_antichain_minimal.
    + by apply foldl_Add_elems_antichain.
    + apply (foldl_Add_elems_covers other (y :: l) (y :: l)); eauto.
    + apply (foldl_Add_elems_covers other (y :: l) (y :: l)); eauto.
Qed.
End ElementLaws.
End Elements.

(** ** The methods on the store *)

Section Methods.
Context {ColSet : Type} `{!ColSetOps ColSet} `{!GrowPolicy}.
Implicit Types (h : heap ColSet) (s wk : slice) (l : list ColSet).

(** *** Preserved arrays *)

Lemma preserved_refl h : preserved h h.
Proof. by intros q a. Qed.

Lemma preserved_trans h1 h2 h3 :
  preserved h1 h2 → preserved h2 h3 → preserved h1 h3.
Proof. intros H1 H2 q a E. by apply H2, H1. Qed.

Lemma preserved_app h (k : heap ColSet) : preserved h (h ++ k).
Proof.
  intros q a E. rewrite lookup_app_l by (by eapply lookup_lt_Some). done.
Qed.

Lemma preserved_length h0 h : preserved h0 h → length h0 ≤ length h.
Proof.
  intros Hp. destruct (decide (length h0 ≤ length h)) as [|Hn]; [done|].
  destruct (lookup_lt_is_Some_2 h0 (length h)) as [a Ea]; [lia|].
  apply Hp, lookup_lt_Some in Ea. lia.
Qed.

Lemma array_preserved h0 h t :
  preserved h0 h → wf h0 t → array h t = array h0 t.
Proof.
  intros Hp (_ & _ & Hptr). unfold array.
  destruct (ptr t) as [q|]; [|done].
  destruct (lookup_lt_is_Some_2 h0 q) as [a Ea]; [by apply Hptr|].
  by rewrite Ea, (Hp _ _ Ea).
Qed.

Lemma elems_preserved h0 h t :
  preserved h0 h → wf h0 t → elems h t = elems h0 t.
Proof. intros Hp Hwf. unfold elems. by rewrite (array_preserved h0). Qed.

Lemma wf_preserved h0 h t : preserved h0 h → wf h0 t → wf h t.
Proof.
  intros Hp Hwf. pose proof (array_preserved _ _ _ Hp Hwf) as Ha.
  pose proof (preserved_length _ _ Hp).
  destruct Hwf as (H1 & H2 & H3). split_and!; [done|by rewrite Ha|].
  intros p Ep. specialize (H3 p Ep). lia.
Qed.

Lemma preserved_modifies h0 h h' s :
  preserved h0 h → modifies s h h' → allocated_from (length h0) s →
  preserved h0 h'.
Proof.
  intros Hp [_ Hm] (p & Ep & Hge) q a E.
  destruct (Hm q a (Hp _ _ E)) as (a' & E' & _ & Ha').
  rewrite E', Ha'; [done|]. rewrite Ep. intros [= ->].
  apply lookup_lt_Some in E. lia.
Qed.

(** *** Allocation *)

Lemma array_alloc h (r : list ColSet) o n c :
  array (h ++ [r]) (Slice (Some (length h)) o n c) = r.
Proof.
  unfold array. simpl. rewrite lookup_app_r by lia.
  by rewrite Nat.sub_diag.
Qed.

Lemma set_array_alloc h r (a : list ColSet) o n c :
  set_array (Slice (Some (length h)) o n c) a (h ++ [r]) = h ++ [a].
Proof.
  unfold set_array. simpl.
  rewrite <- (Nat.add_0_r (length h)). by rewrite insert_app_r.
Qed.

Lemma wf_nil h : wf h nil_slice.
Proof. split_and!; simpl; [lia..|done]. Qed.

Lemma elems_empty h s : len s = 0 → elems h s = [].
Proof. unfold elems. by intros ->. Qed.

(** *** [ContainsSubsetOf] *)

Lemma ContainsSubsetOf_range_spec wk weakKey n : ∀ i h,
  i + n = len wk → off wk + len wk ≤ length (array h wk) →
  ContainsSubsetOf_range wk weakKey n i h =
    Some (existsb (λ e, SubsetOf e weakKey)
            (take n (drop (off wk + i) (array h wk))), h).
Proof.
  induction n as [|n IH]; intros i h Hn Hlen; simpl; [done|].
  destruct (array h wk !! (off wk + i)) as [e|] eqn:Ee; last first.
  { apply lookup_ge_None in Ee. lia. }
  rewrite (drop_S _ _ _ Ee). simpl.
  unfold bind, load. rewrite decide_True by lia. rewrite Ee.
  destruct (SubsetOf e weakKey); simpl; [done|].
  rewrite IH by lia. by rewrite Nat.add_succ_r.
Qed.

Lemma ContainsSubsetOf_spec h wk weakKey :
  wf h wk →
  ContainsSubsetOf wk weakKey h =
    Some (existsb (λ e, SubsetOf e weakKey) (elems h wk), h).
Proof.
  intros (H1 & H2 & _). unfold ContainsSubsetOf.
  rewrite ContainsSubsetOf_range_spec by lia.
  by rewrite Nat.add_0_r.
Qed.

Lemma existsb_SubsetOf l weakKey :
  existsb (λ e, SubsetOf e weakKey) l = true ↔
  ∃ e, e ∈ l ∧ SubsetOf e weakKey = true.
Proof.
  rewrite existsb_exists. split; intros (e & Hin & He); exists e.
  - by apply list_elem_of_In in Hin.
  - split; [by apply list_elem_of_In|done].
Qed.

(** *** [Copy] *)

(** [Copy] allocates one array and fills it with the elements of [wk]. *)
Lemma Copy_eval h wk :
  wf h wk →
  Copy wk h = Some (Slice (Some (length h)) 0 (len wk) (len wk),
                    h ++ [elems h wk]).
Proof.
  intros Hwf. unfold Copy, bind, make. rewrite decide_True by lia.
  unfold bind, alloc, ret, copy. simpl.
  rewrite array_alloc, set_array_alloc.
  rewrite (elems_preserved h) by (done || apply preserved_app).
  rewrite Nat.min_id, drop_replicate, Nat.sub_diag. simpl.
  rewrite app_nil_r, take_ge; [done|].
  by rewrite length_elems.
Qed.

Lemma wf_alloc h (a : list ColSet) n :
  n ≤ length a → wf (h ++ [a]) (Slice (Some (length h)) 0 n (length a)).
Proof.
  intros Hn. split_and!; simpl; [done|by rewrite array_alloc|].
  intros p [= <-]. rewrite length_app. simpl. lia.
Qed.

(** *** [Combine] *)

(** The loop of [Combine] adds the remaining elements of [other] to a
    result that lives in an array allocated after [h0]; the arrays of [h0],
    among them the one of [other], keep their contents. *)
Lemma Combine_range_spec h0 other n : ∀ i res h,
  wf h0 other → preserved h0 h → wf h res →
  allocated_from (length h0) res → i + n = len other →
  ∃ res' h',
    Combine_range other n i res h = Some (res', h') ∧
    wf h' res' ∧ preserved h0 h' ∧ allocated_from (length h0) res' ∧
    elems h' res' =
      foldl (λ acc k, Add_elems k acc) (elems h res)
            (drop i (elems h0 other)).
Proof.
  induction n as [|n IH]; intros i res h Hwo Hp Hwr Hal Hn; simpl.
  - eexists _, _. split; [reflexivity|]. split_and!; try done.
    rewrite drop_ge; [done|]. rewrite length_elems by done. lia.
  - pose proof (wf_preserved _ _ _ Hp Hwo) as Hwo'.
    destruct (elems h0 other !! i) as [k|] eqn:Ek; last first.
    { apply lookup_ge_None in Ek. rewrite length_elems in Ek by done. lia. }
    rewrite (drop_S _ _ _ Ek). simpl.
    assert (Hload : load other i h = Some (k, h)).
    { unfold load. rewrite decide_True by lia.
      rewrite (array_preserved h0) by done.
      unfold elems in Ek. rewrite lookup_take_lt, lookup_drop in Ek by lia.
      by rewrite Ek. }
    unfold bind at 1. rewrite Hload.
    destruct (Add_spec h res k Hwr)
      as (res1 & h1 & HAdd & Hwf1 & Hel1 & Hm1 & Hptr1 & _).
    unfold bind at 1. rewrite HAdd.
    assert (Hp1 : preserved h0 h1) by (by eapply preserved_modifies).
    assert (Hal1 : allocated_from (length h0) res1).
    { destruct Hal as (p & Ep & Hge).
      destruct Hptr1 as [(E & _)|(E & _)].
      - exists p. by rewrite E.
      - exists (length h). split; [done|]. by apply preserved_length. }
    destruct (IH (S i) res1 h1) as (res' & h' & HC & ? & ? & ? & Hel);
      [done..|lia|].
    exists res', h'. split_and!; try done. by rewrite Hel, Hel1.
Qed.

Lemma Combine_eval_empty_l h wk other :
  len wk = 0 → Combine wk other h = Some (other, h).
Proof. intros E. unfold Combine. by rewrite decide_True. Qed.

Lemma Combine_eval_empty_r h wk other :
  len wk ≠ 0 → len other = 0 → Combine wk other h = Some (wk, h).
Proof.
  intros E1 E2. unfold Combine.
  rewrite decide_False by done. by rewrite decide_True.
Qed.

Lemma Combine_spec_nonempty h wk other :
  wf h wk → wf h other → len wk ≠ 0 → len other ≠ 0 →
  ∃ res h',
    Combine wk other h = Some (res, h') ∧
    wf h' res ∧ preserved h h' ∧ allocated_from (length h) res ∧
    elems h' res =
      foldl (λ acc k, Add_elems k acc) (elems h wk) (elems h other).
Proof.
  intros Hw Ho E1 E2. unfold Combine. rewrite !decide_False by done.
  unfold bind at 1, make. rewrite decide_True by lia.
  unfold bind at 1, alloc, ret. unfold bind at 1, copy. simpl.
  rewrite array_alloc, set_array_alloc.
  rewrite (elems_preserved h) by (done || apply preserved_app).
  rewrite Nat.min_id, drop_replicate. simpl.
  rewrite take_ge by (by rewrite length_elems).
  replace (len wk + len other - len wk) with (len other) by lia.
  set (a := elems h wk ++ replicate (len other) emptyColSet).
  set (res0 := Slice (Some (length h)) 0 (len wk) (len wk + len other)).
  assert (Hla : length a = len wk + len other).
  { unfold a. by rewrite length_app, length_replicate, length_elems. }
  assert (Hw0 : wf (h ++ [a]) res0).
  { unfold res0. rewrite <- Hla. apply wf_alloc. lia. }
  assert (Hel0 : elems (h ++ [a]) res0 = elems h wk).
  { unfold elems at 1, res0. rewrite array_alloc. simpl.
    unfold a. apply take_app_length'. by rewrite length_elems. }
  destruct (Combine_range_spec h other (len other) 0 res0 (h ++ [a]))
    as (res' & h' & HC & ? & ? & ? & Hel);
    [done|apply preserved_app|done|by exists (length h)|done|].
  exists res', h'. split_and!; try done.
  by rewrite Hel, Hel0.
Qed.

Lemma Combine_spec h wk other :
  wf h wk → wf h other →
  ∃ res h',
    Combine wk other h = Some (res, h') ∧
    wf h' res ∧ preserved h h' ∧
    elems h' res = Combine_elems (elems h wk) (elems h other).
Proof.
  intros Hw Ho.
  destruct (decide (len wk = 0)) as [E1|E1].
  { exists other, h. rewrite Combine_eval_empty_l by done.
    split_and!; [done..|apply preserved_refl|].
    by rewrite (elems_empty h wk). }
  destruct (decide (len other = 0)) as [E2|E2].
  { exists wk, h. rewrite Combine_eval_empty_r by done.
    split_and!; [done..|apply preserved_refl|].
    rewrite (elems_empty h other) by done. unfold Combine_elems.
    by destruct (elems h wk). }
  destruct (Combine_spec_nonempty h wk other)
    as (res & h' & HC & ? & ? & ? & Hel); [done..|].
  exists res, h'. split_and!; try done. rewrite Hel.
  unfold Combine_elems. destruct (elems h wk) eqn:E; [|done].
  apply (f_equal length) in E. rewrite length_elems in E by done.
  simpl in E. lia.
Qed.

(** *** Sequences of [Add] *)

Lemma Add_all_spec ks : ∀ h0 h wk,
  preserved h0 h → wf h wk → allocated_from (length h0) wk →
  ∃ wk' h',
    Add_all ks wk h = Some (wk', h') ∧ wf h' wk' ∧ preserved h0 h' ∧
    elems h' wk' = foldl (λ acc k, Add_elems k acc) (elems h wk) ks.
Proof.
  induction ks as [|k ks IH]; intros h0 h wk Hp Hwf Hal; simpl.
  - by exists wk, h.
  - destruct (Add_spec h wk k Hwf)
      as (wk1 & h1 & HAdd & Hwf1 & Hel1 & Hm1 & Hptr1 & _).
    unfold bind. rewrite HAdd.
    assert (Hp1 : preserved h0 h1) by (by eapply preserved_modifies).
    assert (Hal1 : allocated_from (length h0) wk1).
    { destruct Hal as (p & Ep & Hge).
      destruct Hptr1 as [(E & _)|(E & _)].
      - exists p. by rewrite E.
      - exists (length h). split; [done|]. by apply preserved_length. }
    destruct (IH h0 h1 wk1) as (wk' & h' & HA & ? & ? & Hel); [done..|].
    exists wk', h'. split_and!; try done. by rewrite Hel, Hel1.
Qed.

Lemma keys_of_cons_same side (k : ColSet) calls :
  keys_of side ((side, k) :: calls) = k :: keys_of side calls.
Proof. unfold keys_of. by rewrite filter_cons_True. Qed.

Lemma keys_of_cons_other side (k : ColSet) calls :
  keys_of (negb side) ((side, k) :: calls) = keys_of (negb side) calls.
Proof.
  unfold keys_of. rewrite filter_cons_False; [done|]. by destruct side.
Qed.

(** Two variables on different arrays stay on different arrays, and each
    shows what its own calls of [Add] produce. *)
Lemma Add_interleaved_spec calls : ∀ h a b,
  wf h a → wf h b → ptr a ≠ ptr b →
  ∃ a' b' h',
    Add_interleaved calls a b h = Some ((a', b'), h') ∧
    wf h' a' ∧ wf h' b' ∧ ptr a' ≠ ptr b' ∧
    elems h' a' =
      foldl (λ acc k, Add_elems k acc) (elems h a) (keys_of true calls) ∧
    elems h' b' =
      foldl (λ acc k, Add_elems k acc) (elems h b) (keys_of false calls).
Proof.
  induction calls as [|[[] k] calls IH]; intros h a b Ha Hb Hne;
    cbn [Add_interleaved].
  - by exists a, b, h.
  - destruct (Add_spec h a k Ha)
      as (a1 & h1 & HAdd & Hwf1 & Hel1 & Hm1 & Hptr1 & _).
    unfold bind. rewrite HAdd.
    destruct (IH h1 a1 b) as (a' & b' & h' & HI & ? & ? & ? & Hea & Heb).
    { done. }
    { by eapply wf_modifies. }
    { destruct Hptr1 as [(E & _)|(E & _)]; rewrite E; [done|].
      intros E'. destruct Hb as (_ & _ & Hb). specialize (Hb _ (eq_sym E')).
      lia. }
    exists a', b', h'. split_and!; try done.
    + by rewrite Hea, Hel1, keys_of_cons_same.
    + rewrite Heb, (elems_modifies a h h1) by done.
      by rewrite (keys_of_cons_other true).
  - destruct (Add_spec h b k Hb)
      as (b1 & h1 & HAdd & Hwf1 & Hel1 & Hm1 & Hptr1 & _).
    unfold bind. rewrite HAdd.
    destruct (IH h1 a b1) as (a' & b' & h' & HI & ? & ? & ? & Hea & Heb).
    { by eapply wf_modifies. }
    { done. }
    { destruct Hptr1 as [(E & _)|(E & _)]; rewrite E; [done|].
      intros E'. destruct Ha as (_ & _ & Ha). specialize (Ha _ E').
      lia. }
    exists a', b', h'. split_and!; try done.
    + rewrite Hea, (elems_modifies b h h1) by done.
      by rewrite (keys_of_cons_other false).
    + by rewrite Heb, Hel1, keys_of_cons_same.
Qed.
End Methods.

(** ** Properties of the methods *)

Section Claims.
Context {ColSet : Type} `{!ColSetOps ColSet} `{!GrowPolicy}.
Implicit Types (h : heap ColSet) (s wk : slice) (l : list ColSet).

Lemma wfb_spec h s : wfb h s = true ↔ wf h s.
Proof.
  unfold wfb, wf. rewrite !andb_true_iff, !Nat.leb_le.
  destruct (ptr s) as [p|].
  - rewrite Nat.ltb_lt. split.
    + intros [[? ?] ?]. split_and!; [done..|]. by intros ? [= <-].
    + intros (? & ? & Hp). split_and!; [done..|]. by apply Hp.
  - split; [intros [[? ?] _]|intros (? & ? & _)]; by split_and!.
Qed.

Lemma Add_all_frame ks : ∀ h (a b : slice),
  wf h a → wf h b → ptr a ≠ ptr b →
  ∃ a' h',
    Add_all ks a h = Some (a', h') ∧ wf h' a' ∧ wf h' b ∧
    ptr a' ≠ ptr b ∧ elems h' b = elems h b ∧
    elems h' a' = foldl (λ acc k, Add_elems k acc) (elems h a) ks.
Proof.
  induction ks as [|k ks IH]; intros h a b Ha Hb Hne; simpl.
  - by exists a, h.
  - destruct (Add_spec h a k Ha)
      as (a1 & h1 & HAdd & Hwf1 & Hel1 & Hm1 & Hptr1 & _).
    unfold bind. rewrite HAdd.
    destruct (IH h1 a1 b) as (a' & h' & HA & ? & ? & ? & Heb & Hea).
    { done. }
    { by eapply wf_modifies. }
    { destruct Hptr1 as [(E & _)|(E & _)]; rewrite E; [done|].
      intros E'. destruct Hb as (_ & _ & Hb). specialize (Hb _ (eq_sym E')).
      lia. }
    exists a', h'. split_and!; try done.
    + rewrite Heb. by apply (elems_modifies a).
    + by rewrite Hea, Hel1.
Qed.

Section Laws.
Hypothesis SubsetOf_refl : ∀ a : ColSet, SubsetOf a a = true.
Hypothesis SubsetOf_trans : ∀ a b c : ColSet,
  SubsetOf a b = true → SubsetOf b c = true → SubsetOf a c = true.
Hypothesis SubsetOf_antisym : ∀ a b : ColSet,
  SubsetOf a b = true → SubsetOf b a = true → a = b.
Hypothesis SubsetOf_empty : ∀ a : ColSet, SubsetOf emptyColSet a = true.

(** *** The early return of [Add] on an antichain *)

Lemma Add_redundant_eval h wk new e :
  wf h wk → antichain (elems h wk) →
  e ∈ elems h wk → SubsetOf e new = true →
  Add new wk h = Some (wk, h).
Proof using SubsetOf_trans.
  intros Hwf Hac Hin He. pose proof Hwf as (Hlc & Hcap & _).
  destruct (scan_elems_redundant_take SubsetOf_trans new _ e Hac Hin He)
    as (n & Hn & E).
  rewrite length_elems in Hn by done.
  unfold Add, bind. rewrite Add_range_spec by lia. simpl.
  rewrite !Nat.add_0_r. fold (elems h wk). rewrite E. simpl.
  unfold ret. do 2 f_equal.
  rewrite length_take_le by (rewrite length_elems by done; lia).
  unfold elems. rewrite take_take, Nat.min_l by lia.
  rewrite app_assoc, take_take_drop, take_drop.
  apply set_array_id.
Qed.

Lemma Add_antichain h wk new :
  wf h wk → antichain (elems h wk) →
  ∃ wk' h', Add new wk h = Some (wk', h') ∧ wf h' wk' ∧
            antichain (elems h' wk').
Proof using SubsetOf_trans.
  intros Hwf Hac.
  destruct (Add_spec h wk new Hwf) as (wk' & h' & HAdd & Hwf' & Hel & _).
  exists wk', h'. split_and!; [done..|]. rewrite Hel.
  by apply Add_elems_antichain.
Qed.

(** *** Client code *)

Lemma var_set_var (ρ : vars) x v y :
  var (set_var x v ρ) y = if decide (y = x) then v else var ρ y.
Proof.
  unfold var, set_var. destruct (decide (y = x)) as [->|Hne].
  - rewrite list_lookup_insert_eq; [done|].
    rewrite length_app, length_replicate. lia.
  - rewrite list_lookup_insert_ne by done.
    destruct (decide (y < length ρ)) as [Hlt|Hge].
    + by rewrite lookup_app_l.
    + apply Nat.nlt_ge in Hge.
      rewrite lookup_app_r by exact Hge.
      rewrite (lookup_ge_None_2 ρ) by exact Hge.
      destruct (replicate _ _ !! _) eqn:E; [|done].
      by apply lookup_replicate in E as [-> _].
Qed.

Lemma var_nil x : var [] x = nil_slice.
Proof. done. Qed.

Lemma owns_spec (ρ : vars) x y p :
  owns ρ x = true → y ≠ x → ptr (var ρ x) = Some p →
  ptr (var ρ y) ≠ Some p.
Proof.
  unfold owns. intros Ho Hne Ep. rewrite Ep in Ho.
  destruct (decide (y < length ρ)) as [Hlt|Hge].
  - apply Is_true_true, forallb_True in Ho.
    rewrite Forall_forall in Ho.
    assert (In y (seq 0 (length ρ))) as Hin.
    { apply in_seq. split; [apply Nat.le_0_l|exact Hlt]. }
    pose proof (Ho y Hin) as Hb. apply orb_True in Hb as [Hb|Hb].
    + by apply bool_decide_unpack in Hb.
    + apply negb_True in Hb. intros E. apply Hb. by apply bool_decide_pack.
  - apply Nat.nlt_ge in Hge. unfold var.
    by rewrite lookup_ge_None_2 by exact Hge.
Qed.

Lemma all_antichainsb_spec (ρ : vars) h :
  all_antichainsb ρ h = true ↔ all_antichains ρ h.
Proof.
  unfold all_antichainsb, all_antichains.
  rewrite <- Is_true_true, forallb_True, Forall_lookup. split.
  - intros Ha x. unfold var. destruct (ρ !! x) as [wk|] eqn:E; simpl.
    + apply Ha, andb_True in E as [E1 E2].
      split; [by apply wfb_spec, Is_true_true|].
      by apply antichainb_spec, Is_true_true.
    + split; [apply wf_nil|]. rewrite elems_empty by done.
      apply antichain_nil.
  - intros Ha x wk E. specialize (Ha x). unfold var, WeakKeys in Ha.
    rewrite E in Ha. simpl in Ha. destruct Ha as [Hw Hac].
    apply andb_True. split; apply Is_true_true.
    + by apply wfb_spec.
    + by apply antichainb_spec.
Qed.

(** A statement run where every variable holds an antichain, and where an
    [Add] writes to an array that no other variable names, does not panic
    and leaves every variable with an antichain. *)
Lemma exec_all_antichains c (ρ : vars) h :
  all_antichains ρ h →
  (∀ x new, c = SAdd x new → owns ρ x = true) →
  ∃ ρ' h', exec c ρ h = Some (ρ', h') ∧ all_antichains ρ' h'.
Proof using SubsetOf_trans.
  intros Hinv Hown. destruct c as [x|x new|x y|x y z]; simpl.
  - eexists _, _. split; [done|]. intros v. rewrite var_set_var.
    destruct (decide (v = x)) as [_|_]; [|apply Hinv].
    split; [apply wf_nil|]. rewrite elems_empty by done.
    apply antichain_nil.
  - destruct (Hinv x) as [Hwf Hac].
    destruct (Add_spec h (var ρ x) new Hwf)
      as (wk' & h' & HAdd & Hwf' & Hel & Hm & _).
    unfold bind. rewrite HAdd. eexists _, _. split; [done|].
    intros v. rewrite var_set_var.
    destruct (decide (v = x)) as [_|Hne].
    { split; [done|]. rewrite Hel. by apply Add_elems_antichain. }
    destruct (Hinv v) as [Hwv Hav].
    split; [by eapply wf_modifies|].
    destruct (ptr (var ρ v)) as [p|] eqn:Ep.
    + rewrite (elems_modifies (var ρ x) h h') by
        (done || rewrite Ep; intros E; symmetry in E;
         by eapply (owns_spec ρ x v p); eauto).
      done.
    + unfold elems in *. by rewrite array_nil in * by done.
  - destruct (Hinv y) as [Hwf Hac].
    unfold bind. rewrite Copy_eval by done.
    eexists _, _. split; [done|]. intros v. rewrite var_set_var.
    destruct (decide (v = x)) as [_|_].
    + assert (elems (h ++ [elems h (var ρ y)])
                (Slice (Some (length h)) 0 (len (var ρ y)) (len (var ρ y)))
              = elems h (var ρ y)) as Hel.
      { unfold elems at 1. rewrite array_alloc. simpl.
        apply take_ge. by rewrite length_elems. }
      split; [|by rewrite Hel].
      rewrite <- (length_elems h (var ρ y)) at 2 by done.
      apply wf_alloc. by rewrite length_elems.
    + destruct (Hinv v) as [Hwv Hav].
      split; [eapply wf_preserved; [apply preserved_app|done]|].
      by rewrite (elems_preserved h) by (done || apply preserved_app).
  - destruct (Hinv y) as [Hwy Hay]. destruct (Hinv z) as [Hwz Haz].
    destruct (Combine_spec h (var ρ y) (var ρ z) Hwy Hwz)
      as (res & h' & HC & Hwr & Hp & Hel).
    unfold bind. rewrite HC. eexists _, _. split; [done|].
    intros v. rewrite var_set_var.
    destruct (decide (v = x)) as [_|_].
    + split; [done|]. rewrite Hel. by apply Combine_elems_antichain.
    + destruct (Hinv v) as [Hwv Hav].
      split; [by eapply wf_preserved|].
      by rewrite (elems_preserved h).
Qed.

Lemma exclusive_take n : ∀ prog (ρ : vars) h,
  exclusive prog ρ h = true → exclusive (take n prog) ρ h = true.
Proof.
  induction n as [|n IH]; intros [|c prog] ρ h Hex; simpl; try done.
  simpl in Hex. apply andb_true_iff in Hex as [Hown Hex].
  rewrite Hown. simpl. destruct (exec c ρ h) as [[ρ1 h1]|]; [|done].
  by apply IH.
Qed.

Lemma run_all_antichains prog : ∀ (ρ : vars) h,
  all_antichains ρ h → exclusive prog ρ h = true →
  ∃ ρ' h', run prog ρ h = Some (ρ', h') ∧ all_antichains ρ' h'.
Proof using SubsetOf_trans.
  induction prog as [|c prog IH]; intros ρ h Hinv Hex; simpl.
  - by exists ρ, h.
  - simpl in Hex. apply andb_true_iff in Hex as [Hown Hex].
    destruct (exec_all_antichains c ρ h Hinv) as (ρ1 & h1 & E & Hinv1).
    { by intros x new ->. }
    rewrite E in Hex. unfold bind. rewrite E. by apply IH.
Qed.

(** *** The numbered properties *)

(** C1.  [Add] keeps the antichain invariant: called on a well-formed
    [WeakKeys] whose elements form an antichain it returns, and the
    elements it leaves form an antichain.  Hence client code that starts
    with every variable holding an antichain, as when all are nil, and in
    which every [Add] is made on a variable that owns its array, does not
    panic and after each of its statements every variable holds an
    antichain. *)
Theorem Add_preserves_antichain h wk new :
  wf h wk → antichain (elems h wk) →
  (∃ wk' h', Add new wk h = Some (wk', h') ∧ wf h' wk' ∧
             antichain (elems h' wk')) ∧
  all_antichains [] [] ∧
  (∀ prog ρ0 h0 n,
     all_antichains ρ0 h0 → exclusive prog ρ0 h0 = true →
     ∃ ρ h', run (take n prog) ρ0 h0 = Some (ρ, h') ∧
             all_antichains ρ h').
Proof using SubsetOf_trans.
  intros Hwf Hac. split_and!.
  - by apply Add_antichain.
  - by apply all_antichainsb_spec.
  - intros prog ρ0 h0 n Hinv Hex.
    by apply run_all_antichains, exclusive_take.
Qed.

(** C2.  When a stored key is a subset of [k], [Add(k)] on an antichain
    returns early with the header and the whole store exactly as they
    were: nothing was overwritten, so the elements, their order and
    their number are unchanged. *)
Theorem Add_redundant_unchanged h wk k e :
  wf h wk → antichain (elems h wk) →
  e ∈ elems h wk → SubsetOf e k = true →
  Add k wk h = Some (wk, h).
Proof using SubsetOf_trans. apply Add_redundant_eval. Qed.

(** C3.  When no stored key is a subset of [k], [Add(k)] leaves the
    stored keys of which [k] is not a subset, in their order, followed
    by [k]; every stored key that is a superset of [k] is gone.  This
    holds whether or not the stored keys form an antichain. *)
Theorem Add_not_redundant_elems h wk k :
  wf h wk →
  (∀ e, e ∈ elems h wk → SubsetOf e k = false) →
  ∃ wk' h',
    Add k wk h = Some (wk', h') ∧ wf h' wk' ∧
    elems h' wk' = filter (λ e, SubsetOf k e = false) (elems h wk) ++ [k] ∧
    len wk' = S (length (filter (λ e, SubsetOf k e = false) (elems h wk))) ∧
    ∀ e, e ∈ elems h wk → SubsetOf k e = true → e ∉ elems h' wk'.
Proof using SubsetOf_refl.
  intros Hwf Hl.
  destruct (Add_spec h wk k Hwf) as (wk' & h' & HAdd & Hwf' & Hel & _).
  rewrite Add_elems_not_redundant in Hel by done.
  exists wk', h'. split_and!; [done..| |].
  - rewrite <- (length_elems h' wk'), Hel, length_app by done.
    simpl. lia.
  - intros e Hin He. rewrite Hel.
    intros [[Hf _]%list_elem_of_filter| ->%list_elem_of_singleton]%elem_of_app.
    + congruence.
    + specialize (Hl _ Hin). by rewrite SubsetOf_refl in Hl.
Qed.

(** C4.  [ContainsSubsetOf(candidate)] returns, leaves the store as it
    was, and its result is [true] exactly when some stored key is a
    subset of [candidate]; a stored key equal to [candidate] counts. *)
Theorem ContainsSubsetOf_iff h wk candidate :
  wf h wk →
  ∃ b, ContainsSubsetOf wk candidate h = Some (b, h) ∧
       (b = true ↔
        ∃ e, e ∈ elems h wk ∧ SubsetOf e candidate = true) ∧
       (candidate ∈ elems h wk → b = true).
Proof using SubsetOf_refl.
  intros Hwf. rewrite ContainsSubsetOf_spec by done.
  eexists. split_and!; [done|apply existsb_SubsetOf|].
  intros Hin. apply existsb_SubsetOf. eauto.
Qed.

(** C5.  On an antichain, [ContainsSubsetOf(k)] is [true] exactly when
    [Add(k)] leaves the elements as they were, and exactly when it leaves
    the header and the store as they were. *)
Theorem ContainsSubsetOf_iff_Add_noop h wk k :
  wf h wk → antichain (elems h wk) →
  ∃ b wk' h',
    ContainsSubsetOf wk k h = Some (b, h) ∧
    Add k wk h = Some (wk', h') ∧
    (b = true ↔ elems h' wk' = elems h wk) ∧
    (b = true ↔ (wk', h') = (wk, h)).
Proof using SubsetOf_refl SubsetOf_trans.
  intros Hwf Hac. rewrite ContainsSubsetOf_spec by done.
  destruct (Add_elems_cases k (elems h wk)) as [(e & Hin & He)|Hl].
  - rewrite (Add_redundant_eval h wk k e) by done.
    assert (existsb (λ e, SubsetOf e k) (elems h wk) = true) as ->
      by (apply existsb_SubsetOf; eauto).
    by eexists _, _, _.
  - destruct (Add_spec h wk k Hwf) as (wk' & h' & HAdd & Hwf' & Hel & _).
    rewrite Add_elems_not_redundant in Hel by done.
    assert (existsb (λ e, SubsetOf e k) (elems h wk) = false) as ->.
    { apply not_true_is_false. intros (e & Hin & He)%existsb_SubsetOf.
      by rewrite Hl in He. }
    assert (elems h' wk' ≠ elems h wk) as Hne.
    { intros E. assert (k ∈ elems h wk) as Hin.
      { rewrite <- E, Hel. apply elem_of_app. right. by left. }
      specialize (Hl _ Hin). by rewrite SubsetOf_refl in Hl. }
    exists false, wk', h'. split_and!; [done..| |].
    + split; [done|]. intros E. by destruct Hne.
    + split; [done|]. intros [= -> ->]. by destruct Hne.
Qed.

(** C6.  On a non-empty antichain, [Add] of the empty column set leaves
    exactly the empty column set, in the same storage: the header it
    returns is the old one with length 1. *)
Theorem Add_empty_key h wk :
  wf h wk → antichain (elems h wk) → len wk ≠ 0 →
  ∃ wk' h',
    Add emptyColSet wk h = Some (wk', h') ∧
    elems h' wk' = [emptyColSet] ∧
    wk' = Slice (ptr wk) (off wk) 1 (cap wk).
Proof using SubsetOf_trans SubsetOf_antisym SubsetOf_empty.
  intros Hwf Hac Hne.
  destruct (Add_elems_cases emptyColSet (elems h wk))
    as [(e & Hin & He)|Hl].
  - rewrite (Add_redundant_eval h wk emptyColSet e) by done.
    assert (e = emptyColSet) as -> by (by apply SubsetOf_antisym).
    assert (elems h wk = [emptyColSet]) as Hel.
    { apply list_elem_of_lookup in Hin as [i Hi].
      destruct (elems h wk) as [|x [|y l]] eqn:El.
      - by rewrite lookup_nil in Hi.
      - destruct i; simpl in Hi; [congruence|by rewrite lookup_nil in Hi].
      - destruct i as [|i].
        + simpl in Hi. simplify_eq.
          pose proof (Hac 0 1 emptyColSet y eq_refl eq_refl) as Hc.
          rewrite SubsetOf_empty in Hc. by discriminate Hc.
        + pose proof (Hac 0 (S i) x emptyColSet eq_refl Hi) as Hc.
          assert (SubsetOf emptyColSet x = true) by apply SubsetOf_empty.
          pose proof (Hac (S i) 0 emptyColSet x Hi eq_refl) as Hc'.
          rewrite SubsetOf_empty in Hc'. by discriminate Hc'. }
    exists wk, h. split_and!; [done..|].
    pose proof (length_elems h wk Hwf) as Hlen. rewrite Hel in Hlen.
    destruct wk. simpl in *. by subst.
  - destruct (Add_spec h wk emptyColSet Hwf)
      as (wk' & h' & HAdd & Hwf' & Hel & _ & Hptr & _).
    rewrite Add_elems_not_redundant in Hel by done.
    assert (filter (λ e, SubsetOf emptyColSet e = false) (elems h wk) = [])
      as Hf.
    { destruct (filter _ _) as [|x ?] eqn:Ef; [done|].
      assert (x ∈ filter (λ e, SubsetOf emptyColSet e = false) (elems h wk))
        as [Hx _]%list_elem_of_filter by (rewrite Ef; by left).
      by rewrite SubsetOf_empty in Hx. }
    rewrite Hf in Hel. simpl in Hel.
    pose proof (length_elems h' wk' Hwf') as Hlen. rewrite Hel in Hlen.
    exists wk', h'. split_and!; [done..|].
    destruct Hwf as (Hlc & _).
    destruct Hptr as [(? & ? & ? & _)|(_ & _ & ?)]; simpl in *; [|lia].
    destruct wk'. simpl in *. by subst.
Qed.

(** C7.  For antichains [wk] and [other], [Combine] returns, its elements
    form an antichain, and a column set is among them exactly when it is
    a minimal element of the elements of [wk] and [other] together. *)
Theorem Combine_minimal_elements h wk other :
  wf h wk → wf h other →
  antichain (elems h wk) → antichain (elems h other) →
  ∃ res h',
    Combine wk other h = Some (res, h') ∧
    antichain (elems h' res) ∧
    ∀ x, x ∈ elems h' res ↔ minimal (elems h wk ++ elems h other) x.
Proof using SubsetOf_refl SubsetOf_trans SubsetOf_antisym.
  intros Hw Ho Haw Hao.
  destruct (Combine_spec h wk other Hw Ho) as (res & h' & HC & _ & _ & Hel).
  exists res, h'. rewrite Hel. split_and!; [done| |].
  - by apply Combine_elems_antichain.
  - by apply Combine_elems_minimal.
Qed.
End Laws.

(** C8, as amended.  When [other] is empty, [Combine] returns one of its
    two arguments itself and leaves the store as it was: [other.Combine(wk)]
    returns [wk]; [wk.Combine(other)] returns [wk] when [wk] is not empty
    and returns [other] when [wk] is empty too.  In every case the result
    shows the elements of [wk]. *)
Theorem Combine_empty_side h wk other :
  len other = 0 →
  Combine other wk h = Some (wk, h) ∧
  (len wk ≠ 0 → Combine wk other h = Some (wk, h)) ∧
  (len wk = 0 → Combine wk other h = Some (other, h)) ∧
  (∃ res, Combine wk other h = Some (res, h) ∧
          elems h res = elems h wk).
Proof.
  intros Hz. split_and!.
  - by apply Combine_eval_empty_l.
  - intros Hne. by apply Combine_eval_empty_r.
  - intros Hz'. by apply Combine_eval_empty_l.
  - destruct (decide (len wk = 0)) as [Hz'|Hne].
    + exists other. rewrite Combine_eval_empty_l by done.
      by rewrite !elems_empty.
    + exists wk. by rewrite Combine_eval_empty_r.
Qed.

(** C9.  [Copy] returns a header on a newly allocated array holding the
    elements of [wk] in their order; the source still shows its elements;
    and from then on calls of [Add] on the copy never change what the
    source shows, calls of [Add] on the source never change what the copy
    shows, and under any interleaving of such calls each variable shows
    what its own calls alone produce. *)
Theorem Copy_independent h wk :
  wf h wk →
  ∃ res h1,
    Copy wk h = Some (res, h1) ∧
    elems h1 res = elems h wk ∧ elems h1 wk = elems h wk ∧
    ptr res = Some (length h) ∧ h !! length h = None ∧
    ptr res ≠ ptr wk ∧
    (∀ ks, ∃ res' h2, Add_all ks res h1 = Some (res', h2) ∧
                      elems h2 wk = elems h wk) ∧
    (∀ ks, ∃ wk' h2, Add_all ks wk h1 = Some (wk', h2) ∧
                     elems h2 res = elems h wk) ∧
    (∀ calls, ∃ wk' res' h2,
       Add_interleaved calls wk res h1 = Some ((wk', res'), h2) ∧
       elems h2 wk' =
         foldl (λ acc k, Add_elems k acc) (elems h wk) (keys_of true calls) ∧
       elems h2 res' =
         foldl (λ acc k, Add_elems k acc) (elems h wk)
               (keys_of false calls)).
Proof.
  intros Hwf. rewrite Copy_eval by done.
  set (res := Slice (Some (length h)) 0 (len wk) (len wk)).
  set (h1 := h ++ [elems h wk]).
  assert (Hp : preserved h h1) by apply preserved_app.
  assert (Hwf1 : wf h1 wk) by (by eapply wf_preserved).
  assert (Hel1 : elems h1 wk = elems h wk) by (by apply elems_preserved).
  assert (Helr : elems h1 res = elems h wk).
  { unfold elems at 1, h1, res. rewrite array_alloc. simpl.
    apply take_ge. by rewrite length_elems. }
  assert (Hwfr : wf h1 res).
  { unfold h1, res. rewrite <- (length_elems h wk) at 2 by done.
    apply wf_alloc. by rewrite length_elems. }
  assert (Hne : ptr res ≠ ptr wk).
  { simpl. intros E. destruct Hwf as (_ & _ & Hptr).
    specialize (Hptr _ (eq_sym E)). lia. }
  exists res, h1. split_and!; try done.
  - by apply lookup_ge_None.
  - intros ks.
    destruct (Add_all_frame ks h1 res wk)
      as (res' & h2 & E & _ & _ & _ & Hel & _);
      [done..|].
    exists res', h2. split; [done|]. by rewrite Hel.
  - intros ks.
    destruct (Add_all_frame ks h1 wk res)
      as (wk' & h2 & E & _ & _ & _ & Hel & _);
      [done..|].
    exists wk', h2. split; [done|]. by rewrite Hel.
  - intros calls.
    destruct (Add_interleaved_spec calls h1 wk res)
      as (wk' & res' & h2 & E & _ & _ & _ & Hea & Heb); [done..|].
    exists wk', res', h2. split_and!; [done|by rewrite Hea, Hel1|].
    by rewrite Heb, Helr.
Qed.

(** C10.  When neither argument is empty, [Combine] returns a header on an
    array allocated during the call, so on an array of neither argument;
    both arguments still show their elements, and they keep showing them
    whatever keys are then added to the result. *)
Theorem Combine_fresh h wk other :
  wf h wk → wf h other → len wk ≠ 0 → len other ≠ 0 →
  ∃ res h1,
    Combine wk other h = Some (res, h1) ∧
    allocated_from (length h) res ∧
    ptr res ≠ ptr wk ∧ ptr res ≠ ptr other ∧
    elems h1 wk = elems h wk ∧ elems h1 other = elems h other ∧
    ∀ ks, ∃ res' h2,
      Add_all ks res h1 = Some (res', h2) ∧
      elems h2 wk = elems h wk ∧ elems h2 other = elems h other.
Proof.
  intros Hw Ho Z1 Z2.
  destruct (Combine_spec_nonempty h wk other)
    as (res & h1 & HC & Hwr & Hp & Hal & _); [done..|].
  assert (Hfresh : ∀ t, wf h t → ptr res ≠ ptr t).
  { intros t (_ & _ & Hptr) E. destruct Hal as (p & Ep & Hge).
    rewrite Ep in E. specialize (Hptr _ (eq_sym E)). lia. }
  exists res, h1. split_and!; auto using elems_preserved.
  intros ks.
  destruct (Add_all_spec ks h h1 res) as (res' & h2 & E & _ & Hp2 & _);
    [done..|].
  exists res', h2. split_and!; auto using elems_preserved.
Qed.
End Claims.

(** ** The bitset column set *)

Section Bitset.
#[local] Existing Instances bitset_ColSet doubling.

Lemma bitset_refl (a : N) : SubsetOf a a = true.
Proof. simpl. rewrite N.land_diag. apply N.eqb_refl. Qed.

Lemma bitset_trans (a b c : N) :
  SubsetOf a b = true → SubsetOf b c = true → SubsetOf a c = true.
Proof.
  simpl. rewrite !N.eqb_eq. intros Hab Hbc.
  by rewrite <- Hab, <- N.land_assoc, Hbc.
Qed.

Lemma bitset_antisym (a b : N) :
  SubsetOf a b = true → SubsetOf b a = true → a = b.
Proof.
  simpl. rewrite !N.eqb_eq. intros Hab Hba.
  by rewrite <- Hab, N.land_comm.
Qed.

Lemma bitset_empty (a : N) : SubsetOf emptyColSet a = true.
Proof. done. Qed.

Ltac by_wfb := apply wfb_spec; vm_compute; reflexivity.
Ltac by_antichainb := apply antichainb_spec; vm_compute; reflexivity.

(** *** The examples of the specification *)

(** Stored [{1,2}], [Add({1})]: the smaller key replaces the larger. *)
Example Add_dominance :
  ∃ wk' h', Add (cols [1]) keys_first store_12_1 = Some (wk', h') ∧
            elems h' wk' = [cols [1]].
Proof. by eexists _, _. Qed.

(** Stored [{1}], [Add({1,2})]: nothing changes. *)
Example Add_redundancy :
  Add (cols [1; 2]) keys_first store_1_2 = Some (keys_first, store_1_2).
Proof. done. Qed.

(** [Combine({{1}}, {{2}})] is [{{1}, {2}}]. *)
Example Combine_disjoint_keys :
  ∃ res h', Combine keys_first keys_second store_1_2 = Some (res, h') ∧
            elems h' res = [cols [1]; cols [2]].
Proof. by eexists _, _. Qed.

(** [Combine({{1,2}}, {{1}})] is [{{1}}]. *)
Example Combine_dominated_key :
  ∃ res h', Combine keys_first keys_second store_12_1 = Some (res, h') ∧
            elems h' res = [cols [1]].
Proof. by eexists _, _. Qed.

(** *** Outside the invariant *)

(** Stored [{1,2}], [{3}], [{1}], which is not an antichain: [Add({1})]
    drops [{1,2}], moves [{3}] to the front and only then meets [{1}] and
    returns, leaving [{3}], [{3}], [{1}]. *)
Example Add_returns_after_overwriting :
  antichainb (elems store_12_3_1 keys_12_3_1) = false ∧
  Add (cols [1]) keys_12_3_1 store_12_3_1 =
    Some (keys_12_3_1, [[cols [3]; cols [3]; cols [1]]]).
Proof. done. Qed.

(** [Combine] with an empty receiver hands back [other] itself, so a key
    added to the result is written into the array of [other]: a variable
    that still holds the old header of [other] then shows [{5}], [{1}],
    [{1,3}]. *)
Example Add_through_Combine_alias :
  Combine nil_slice keys_12_5_13 store_12_5_13 =
    Some (keys_12_5_13, store_12_5_13) ∧
  Add (cols [1]) keys_12_5_13 store_12_5_13 =
    Some (Slice (Some 0) 0 2 3, [[cols [5]; cols [1]; cols [1; 3]]]) ∧
  elems [[cols [5]; cols [1]; cols [1; 3]]] keys_12_5_13 =
    [cols [5]; cols [1]; cols [1; 3]].
Proof. done. Qed.

(** C1, the claim as stated fails.  In [client_alias] every value comes
    from nil through [Add] and [Combine].  Before the last statement [x]
    and [y] hold the same header and every variable holds an antichain.
    The last statement, [y.Add({1})], is called on an antichain and
    leaves one in [y], but it compacts the array that [x] names as well:
    [x] then shows [{5}], [{1}], [{1,3}], which is not an antichain, and
    [x.Add({7})] returns with [{5}], [{1}], [{1,3}], [{7}]. *)
Lemma Add_on_Combine_result_breaks_antichain :
  let x := Slice (Some 2) 0 3 4 in
  let h4 := [[cols [1; 2]]; [cols [1; 2]; cols [5]];
             [cols [1; 2]; cols [5]; cols [1; 3]; 0%N]] in
  let h5 := [[cols [1; 2]]; [cols [1; 2]; cols [5]];
             [cols [5]; cols [1]; cols [1; 3]; 0%N]] in
  let h6 := [[cols [1; 2]]; [cols [1; 2]; cols [5]];
             [cols [5]; cols [1]; cols [1; 3]; cols [7]]] in
  run (take 4 client_alias) [] [] = Some ([x; x], h4) ∧
  all_antichains [x; x] h4 ∧
  run client_alias [] [] = Some ([x; Slice (Some 2) 0 2 4], h5) ∧
  antichain (elems h5 (Slice (Some 2) 0 2 4)) ∧
  wf h5 x ∧
  elems h5 x = [cols [5]; cols [1]; cols [1; 3]] ∧
  ¬ antichain (elems h5 x) ∧
  ¬ all_antichains [x; Slice (Some 2) 0 2 4] h5 ∧
  run (client_alias ++ [SAdd 0 (cols [7])]) [] [] =
    Some ([Slice (Some 2) 0 4 4; Slice (Some 2) 0 2 4], h6) ∧
  elems h6 (Slice (Some 2) 0 4 4) =
    [cols [5]; cols [1]; cols [1; 3]; cols [7]] ∧
  ¬ antichain (elems h6 (Slice (Some 2) 0 4 4)) ∧
  exclusive client_alias [] [] = false.
Proof.
  intros x h4 h5 h6. split_and!; try by vm_compute.
  - apply all_antichainsb_spec. by vm_compute.
  - by_antichainb.
  - by_wfb.
  - rewrite <- antichainb_spec. by vm_compute.
  - rewrite <- all_antichainsb_spec. by vm_compute.
  - rewrite <- antichainb_spec. by vm_compute.
Qed.

(** C8, the claim as stated fails: [keys_spare] is empty but not nil, and
    [keys_spare.Combine(nil)] returns nil, the other argument, not
    [keys_spare] itself. *)
Lemma Combine_empty_receiver_returns_other :
  wf store_spare keys_spare ∧ len nil_slice = 0 ∧
  Combine keys_spare nil_slice store_spare = Some (nil_slice, store_spare) ∧
  Combine keys_spare nil_slice store_spare ≠ Some (keys_spare, store_spare).
Proof. split_and!; [by_wfb|done|done|discriminate]. Qed.

(** *** The theorems at concrete inputs *)

Lemma Add_preserves_antichain_witness :
  wf store_12_3 keys_12_3 ∧ antichain (elems store_12_3 keys_12_3) ∧
  (∃ wk' h', Add (cols [1]) keys_12_3 store_12_3 = Some (wk', h') ∧
             wf h' wk' ∧ antichain (elems h' wk')) ∧
  exclusive client_copy [] [] = true ∧
  ∃ ρ h', run (take 7 client_copy) [] [] = Some (ρ, h') ∧
          all_antichains ρ h'.
Proof.
  destruct (Add_preserves_antichain bitset_trans
              store_12_3 keys_12_3 (cols [1]))
    as (HAdd & Hnil & Hrun); [by_wfb|by_antichainb|].
  split; [by_wfb|]. split; [by_antichainb|]. split; [exact HAdd|].
  split; [by vm_compute|].
  apply Hrun; [exact Hnil|by vm_compute].
Defined.

Lemma Add_redundant_unchanged_witness :
  wf store_1_2 keys_first ∧ antichain (elems store_1_2 keys_first) ∧
  cols [1] ∈ elems store_1_2 keys_first ∧
  SubsetOf (cols [1]) (cols [1; 2]) = true ∧
  Add (cols [1; 2]) keys_first store_1_2 = Some (keys_first, store_1_2).
Proof.
  assert (cols [1] ∈ elems store_1_2 keys_first) as Hin by (by left).
  split_and!; [by_wfb|by_antichainb|exact Hin|reflexivity|].
  apply (Add_redundant_unchanged bitset_trans store_1_2 keys_first
           (cols [1; 2]) (cols [1]));
    [by_wfb|by_antichainb|exact Hin|reflexivity].
Defined.

Lemma Add_not_redundant_elems_witness :
  wf store_12_1 keys_first ∧
  (∀ e, e ∈ elems store_12_1 keys_first →
        SubsetOf e (cols [1]) = false) ∧
  ∃ wk' h',
    Add (cols [1]) keys_first store_12_1 = Some (wk', h') ∧ wf h' wk' ∧
    elems h' wk' =
      filter (λ e, SubsetOf (cols [1]) e = false)
             (elems store_12_1 keys_first) ++ [cols [1]] ∧
    len wk' =
      S (length (filter (λ e, SubsetOf (cols [1]) e = false)
                        (elems store_12_1 keys_first))) ∧
    ∀ e, e ∈ elems store_12_1 keys_first →
         SubsetOf (cols [1]) e = true → e ∉ elems h' wk'.
Proof.
  assert (∀ e, e ∈ elems store_12_1 keys_first →
               SubsetOf e (cols [1]) = false) as Hl.
  { intros e Hin. change (e ∈ [cols [1; 2]]) in Hin.
    apply list_elem_of_singleton in Hin. by subst. }
  split_and!; [by_wfb|exact Hl|].
  apply (Add_not_redundant_elems bitset_refl store_12_1 keys_first (cols [1]));
    [by_wfb|exact Hl].
Defined.

Lemma ContainsSubsetOf_iff_witness :
  wf store_12_3 keys_12_3 ∧
  ∃ b, ContainsSubsetOf keys_12_3 (cols [3; 4]) store_12_3
         = Some (b, store_12_3) ∧
       (b = true ↔
        ∃ e, e ∈ elems store_12_3 keys_12_3 ∧
             SubsetOf e (cols [3; 4]) = true) ∧
       (cols [3; 4] ∈ elems store_12_3 keys_12_3 → b = true).
Proof.
  split; [by_wfb|].
  apply (ContainsSubsetOf_iff bitset_refl store_12_3 keys_12_3 (cols [3; 4])).
  by_wfb.
Defined.

Lemma ContainsSubsetOf_iff_Add_noop_witness :
  wf store_12_3 keys_12_3 ∧ antichain (elems store_12_3 keys_12_3) ∧
  ∃ b wk' h',
    ContainsSubsetOf keys_12_3 (cols [3; 4]) store_12_3
      = Some (b, store_12_3) ∧
    Add (cols [3; 4]) keys_12_3 store_12_3 = Some (wk', h') ∧
    (b = true ↔ elems h' wk' = elems store_12_3 keys_12_3) ∧
    (b = true ↔ (wk', h') = (keys_12_3, store_12_3)).
Proof.
  split_and!; [by_wfb|by_antichainb|].
  apply (ContainsSubsetOf_iff_Add_noop bitset_refl bitset_trans
           store_12_3 keys_12_3 (cols [3; 4]));
    [by_wfb|by_antichainb].
Defined.

Lemma Add_empty_key_witness :
  wf store_12_3 keys_12_3 ∧ antichain (elems store_12_3 keys_12_3) ∧
  len keys_12_3 ≠ 0 ∧
  ∃ wk' h',
    Add emptyColSet keys_12_3 store_12_3 = Some (wk', h') ∧
    elems h' wk' = [emptyColSet] ∧
    wk' = Slice (ptr keys_12_3) (off keys_12_3) 1 (cap keys_12_3).
Proof.
  split_and!; [by_wfb|by_antichainb|discriminate|].
  apply (Add_empty_key bitset_trans bitset_antisym bitset_empty
           store_12_3 keys_12_3);
    [by_wfb|by_antichainb|discriminate].
Defined.

Lemma Combine_minimal_elements_witness :
  wf store_12_1 keys_first ∧ wf store_12_1 keys_second ∧
  antichain (elems store_12_1 keys_first) ∧
  antichain (elems store_12_1 keys_second) ∧
  ∃ res h',
    Combine keys_first keys_second store_12_1 = Some (res, h') ∧
    antichain (elems h' res) ∧
    ∀ x, x ∈ elems h' res ↔
         minimal (elems store_12_1 keys_first ++
                  elems store_12_1 keys_second) x.
Proof.
  split_and!; [by_wfb|by_wfb|by_antichainb|by_antichainb|].
  apply (Combine_minimal_elements bitset_refl bitset_trans bitset_antisym
           store_12_1 keys_first keys_second);
    [by_wfb|by_wfb|by_antichainb|by_antichainb].
Defined.

Lemma Combine_empty_side_witness :
  len nil_slice = 0 ∧
  Combine nil_slice keys_12_3 store_12_3 = Some (keys_12_3, store_12_3) ∧
  (len keys_12_3 ≠ 0 →
   Combine keys_12_3 nil_slice store_12_3 = Some (keys_12_3, store_12_3)) ∧
  (len keys_12_3 = 0 →
   Combine keys_12_3 nil_slice store_12_3 = Some (nil_slice, store_12_3)) ∧
  (∃ res, Combine keys_12_3 nil_slice store_12_3 = Some (res, store_12_3) ∧
          elems store_12_3 res = elems store_12_3 keys_12_3).
Proof.
  split; [reflexivity|].
  apply (Combine_empty_side store_12_3 keys_12_3 nil_slice). reflexivity.
Defined.

Lemma Copy_independent_witness :
  wf store_12_3 keys_12_3 ∧
  ∃ res h1,
    Copy keys_12_3 store_12_3 = Some (res, h1) ∧
    elems h1 res = elems store_12_3 keys_12_3 ∧
    elems h1 keys_12_3 = elems store_12_3 keys_12_3 ∧
    ptr res = Some (length store_12_3) ∧
    store_12_3 !! length store_12_3 = None ∧
    ptr res ≠ ptr keys_12_3 ∧
    (∀ ks, ∃ res' h2, Add_all ks res h1 = Some (res', h2) ∧
                      elems h2 keys_12_3 = elems store_12_3 keys_12_3) ∧
    (∀ ks, ∃ wk' h2, Add_all ks keys_12_3 h1 = Some (wk', h2) ∧
                     elems h2 res = elems store_12_3 keys_12_3) ∧
    (∀ calls, ∃ wk' res' h2,
       Add_interleaved calls keys_12_3 res h1 = Some ((wk', res'), h2) ∧
       elems h2 wk' =
         foldl (λ acc k, Add_elems k acc) (elems store_12_3 keys_12_3)
               (keys_of true calls) ∧
       elems h2 res' =
         foldl (λ acc k, Add_elems k acc) (elems store_12_3 keys_12_3)
               (keys_of false calls)).
Proof.
  split; [by_wfb|].
  apply (Copy_independent store_12_3 keys_12_3). by_wfb.
Defined.

Lemma Combine_fresh_witness :
  wf store_1_2 keys_first ∧ wf store_1_2 keys_second ∧
  len keys_first ≠ 0 ∧ len keys_second ≠ 0 ∧
  ∃ res h1,
    Combine keys_first keys_second store_1_2 = Some (res, h1) ∧
    allocated_from (length store_1_2) res ∧
    ptr res ≠ ptr keys_first ∧ ptr res ≠ ptr keys_second ∧
    elems h1 keys_first = elems store_1_2 keys_first ∧
    elems h1 keys_second = elems store_1_2 keys_second ∧
    ∀ ks, ∃ res' h2,
      Add_all ks res h1 = Some (res', h2) ∧
      elems h2 keys_first = elems store_1_2 keys_first ∧
      elems h2 keys_second = elems store_1_2 keys_second.
Proof.
  split_and!; [by_wfb|by_wfb|discriminate|discriminate|].
  apply (Combine_fresh store_1_2 keys_first keys_second);
    [by_wfb|by_wfb|discriminate|discriminate].
Defined.
End Bitset.

(** * Further properties *)

(** ** Weak keys *)

Section MoreOfWeakKeys.
Context {ColSet : Type} `{!ColSetOps ColSet} `{!GrowPolicy}.
Implicit Types (h : heap ColSet) (s wk : slice) (l : list ColSet).

(** *** More on the elements [Add] leaves *)

Lemma elem_of_drop_le {A} (x : A) (l : list A) n m :
  n ≤ m → x ∈ drop m l → x ∈ drop n l.
Proof.
  intros Hle Hin. replace m with (n + (m - n)) in Hin by lia.
  rewrite <- drop_drop in Hin.
  apply list_elem_of_lookup in Hin as [i Hi]. rewrite lookup_drop in Hi.
  eapply list_elem_of_lookup_2. done.
Qed.

(** With a redundant key the elements left are the survivors of the part
    before the first subset of [new], then the old elements from that
    many positions on: the first subset itself is still there. *)
Lemma Add_elems_redundant_shape new l :
  (scan_elems new l).2 = true →
  ∃ l1 e l2,
    l = l1 ++ e :: l2 ∧ SubsetOf e new = true ∧
    (∀ x, x ∈ l1 → SubsetOf x new = false) ∧
    Add_elems new l =
      filter (λ x, SubsetOf new x = false) l1 ++
      drop (length (filter (λ x, SubsetOf new x = false) l1)) l.
Proof.
  intros (e & Hin & He)%scan_elems_redundant_iff.
  destruct (first_subset_split _ _ _ Hin He)
    as (l1 & e' & l2 & -> & He' & Hl1).
  exists l1, e', l2. split_and!; [done..|].
  unfold Add_elems. by rewrite scan_elems_redundant.
Qed.

Lemma Add_elems_length new l :
  length (Add_elems new l) ≤ S (length l) ∧
  1 ≤ length (Add_elems new l).
Proof.
  pose proof (scan_elems_length new l) as Hk. unfold Add_elems.
  destruct (scan_elems new l) as [k r] eqn:E. simpl in Hk. destruct r.
  - rewrite length_app, length_drop.
    assert ((scan_elems new l).2 = true) as Hr by (by rewrite E).
    apply scan_elems_redundant_iff in Hr as (e & Hin & _).
    destruct l; [by apply elem_of_nil in Hin|]. simpl in *. lia.
  - rewrite length_app. simpl. lia.
Qed.

Lemma Add_elems_subset new l x :
  x ∈ Add_elems new l → x = new ∨ x ∈ l.
Proof.
  destruct (scan_elems new l).2 eqn:Er.
  - destruct (Add_elems_redundant_shape new l Er)
      as (l1 & e & l2 & El & _ & _ & ->).
    intros [[_ Hx]%list_elem_of_filter|Hx]%elem_of_app; right.
    + rewrite El. apply elem_of_app. by left.
    + eapply (elem_of_drop_le _ _ 0); [lia|done].
  - assert (∀ e, e ∈ l → SubsetOf e new = false) as Hl.
    { intros e Hin. destruct (SubsetOf e new) eqn:He; [|done].
      assert ((scan_elems new l).2 = true)
        by (apply scan_elems_redundant_iff; eauto). congruence. }
    rewrite Add_elems_not_redundant by done.
    intros [[_ Hx]%list_elem_of_filter| ->%list_elem_of_singleton]%elem_of_app;
      auto.
Qed.

Section CoverLaws.
Hypothesis SubsetOf_refl : ∀ a : ColSet, SubsetOf a a = true.
Hypothesis SubsetOf_trans : ∀ a b c : ColSet,
  SubsetOf a b = true → SubsetOf b c = true → SubsetOf a c = true.
Hypothesis SubsetOf_antisym : ∀ a b : ColSet,
  SubsetOf a b = true → SubsetOf b a = true → a = b.

(** After [Add] some element is a subset of [new]. *)
Lemma Add_elems_has_subset new l :
  ∃ e, e ∈ Add_elems new l ∧ SubsetOf e new = true.
Proof using SubsetOf_refl.
  destruct (scan_elems new l).2 eqn:Er.
  - destruct (Add_elems_redundant_shape new l Er)
      as (l1 & e & l2 & El & He & _ & ->).
    exists e. split; [|done]. apply elem_of_app. right.
    apply (elem_of_drop_le _ _ _ (length l1)); [apply length_filter|].
    rewrite El, drop_app_length. by left.
  - assert (∀ e, e ∈ l → SubsetOf e new = false) as Hl.
    { intros e Hin. destruct (SubsetOf e new) eqn:He; [|done].
      assert ((scan_elems new l).2 = true)
        by (apply scan_elems_redundant_iff; eauto). congruence. }
    rewrite Add_elems_not_redundant by done.
    exists new. split; [|done]. apply elem_of_app. right. by left.
Qed.

(** What the elements implied before [Add], they imply after it. *)
Lemma Add_elems_still_covers new l c :
  (∃ e, e ∈ l ∧ SubsetOf e c = true) →
  ∃ e, e ∈ Add_elems new l ∧ SubsetOf e c = true.
Proof using SubsetOf_trans.
  intros (e & Hin & Hec).
  destruct (scan_elems new l).2 eqn:Er.
  - destruct (Add_elems_redundant_shape new l Er)
      as (l1 & ep & l2 & El & Hep & _ & ->).
    assert (ep ∈ drop (length (filter (λ x, SubsetOf new x = false) l1)) l)
      as Hep_in.
    { apply (elem_of_drop_le _ _ _ (length l1)); [apply length_filter|].
      rewrite El, drop_app_length. by left. }
    rewrite El in Hin. apply elem_of_app in Hin as [Hin|Hin].
    + destruct (SubsetOf new e) eqn:Hne.
      * exists ep. split; [apply elem_of_app; by right|].
        eapply SubsetOf_trans; [|done]. by eapply SubsetOf_trans.
      * exists e. split; [|done]. apply elem_of_app. left.
        by apply list_elem_of_filter.
    + exists e. split; [|done]. apply elem_of_app. right.
      apply (elem_of_drop_le _ _ _ (length l1)); [apply length_filter|].
      by rewrite El, drop_app_length.
  - assert (∀ e, e ∈ l → SubsetOf e new = false) as Hl.
    { intros e' Hin'. destruct (SubsetOf e' new) eqn:He; [|done].
      assert ((scan_elems new l).2 = true)
        by (apply scan_elems_redundant_iff; eauto). congruence. }
    rewrite Add_elems_not_redundant by done.
    destruct (SubsetOf new e) eqn:Hne.
    + exists new. split; [apply elem_of_app; right; by left|].
      by eapply SubsetOf_trans.
    + exists e. split; [|done]. apply elem_of_app. left.
      by apply list_elem_of_filter.
Qed.

Lemma foldl_Add_elems_still_covers ks : ∀ l c,
  (∃ e, e ∈ l ∧ SubsetOf e c = true) →
  ∃ e, e ∈ foldl (λ acc k, Add_elems k acc) l ks ∧ SubsetOf e c = true.
Proof using SubsetOf_trans.
  induction ks as [|k ks IH]; intros l c Hc; simpl; [done|].
  apply IH. by apply Add_elems_still_covers.
Qed.

Lemma foldl_Add_elems_covers_keys ks : ∀ l u,
  u ∈ l ++ ks →
  ∃ e, e ∈ foldl (λ acc k, Add_elems k acc) l ks ∧ SubsetOf e u = true.
Proof using SubsetOf_trans SubsetOf_refl.
  induction ks as [|k ks IH]; intros l u Hu; simpl.
  - rewrite app_nil_r in Hu. eauto.
  - apply elem_of_app in Hu as [Hu|[->|Hu]%elem_of_cons].
    + apply foldl_Add_elems_still_covers, Add_elems_still_covers. eauto.
    + apply foldl_Add_elems_still_covers, Add_elems_has_subset.
    + apply IH. apply elem_of_app. by right.
Qed.

(** The elements after a sequence of [Add]s on an antichain are the minimal
    elements of the old elements and the keys together. *)
Lemma foldl_Add_elems_minimal l ks :
  antichain l →
  ∀ x, x ∈ foldl (λ acc k, Add_elems k acc) l ks ↔ minimal (l ++ ks) x.
Proof using SubsetOf_trans SubsetOf_refl SubsetOf_antisym.
  intros Hac. apply covering_antichain_minimal; [done..| | |].
  - by apply foldl_Add_elems_antichain.
  - apply (foldl_Add_elems_covers SubsetOf_refl SubsetOf_trans ks l l);
      eauto.
  - apply (foldl_Add_elems_covers SubsetOf_refl SubsetOf_trans ks l l);
      eauto.
Qed.

Lemma minimal_equiv (U V : list ColSet) x :
  (∀ y, y ∈ U ↔ y ∈ V) → minimal U x ↔ minimal V x.
Proof.
  intros HUV. unfold minimal. rewrite HUV.
  split; intros [Hx Hm]; (split; [done|]); intros y Hy; apply Hm;
    by apply HUV.
Qed.

End CoverLaws.

(** *** More on the methods *)

Lemma Add_all_elems ks : ∀ h wk,
  wf h wk →
  ∃ wk' h',
    Add_all ks wk h = Some (wk', h') ∧ wf h' wk' ∧
    elems h' wk' = foldl (λ acc k, Add_elems k acc) (elems h wk) ks.
Proof.
  induction ks as [|k ks IH]; intros h wk Hwf; simpl.
  - by exists wk, h.
  - destruct (Add_spec h wk k Hwf) as (wk1 & h1 & HAdd & Hwf1 & Hel1 & _).
    unfold bind. rewrite HAdd.
    destruct (IH h1 wk1 Hwf1) as (wk' & h' & E & ? & Hel).
    exists wk', h'. split_and!; [done..|]. by rewrite Hel, Hel1.
Qed.

(** [Add] on a full slice whose elements are all incomparable with [new]:
    [append] allocates, and the old array is left as it was. *)
Lemma Add_full_eval h wk new :
  wf h wk → len wk = cap wk →
  (∀ e, e ∈ elems h wk → SubsetOf e new = false ∧ SubsetOf new e = false) →
  Add new wk h =
    Some (Slice (Some (length h)) 0 (S (len wk))
                (S (len wk) `max` growslice (cap wk)),
          h ++ [elems h wk ++
                new :: replicate (S (len wk) `max` growslice (cap wk)
                                  - S (len wk)) emptyColSet]).
Proof.
  intros Hwf Hfull Hinc. pose proof Hwf as (Hlc & Hcap & _).
  unfold Add, bind at 1. rewrite Add_range_spec by lia. simpl.
  rewrite !Nat.add_0_r. fold (elems h wk).
  rewrite scan_elems_not_redundant by (intros; by apply Hinc).
  rewrite filter_all
    by (apply Forall_forall; intros x Hx%list_elem_of_In; by apply Hinc).
  simpl. rewrite length_elems by done.
  assert (take (off wk) (array h wk) ++ elems h wk ++
          drop (off wk + len wk) (array h wk) = array h wk) as ->.
  { unfold elems. by rewrite app_assoc, take_take_drop, take_drop. }
  rewrite set_array_id.
  unfold bind at 1, reslice. rewrite decide_True by lia.
  unfold ret at 1, append. simpl. rewrite decide_False by lia.
  unfold bind, alloc, ret. simpl.
  assert (elems h {| ptr := ptr wk; off := off wk; len := len wk;
                     cap := cap wk |} = elems h wk) as -> by done.
  done.
Qed.

(** The loop of [Combine] never outgrows the capacity [make] gave the
    result: every [Add] works in the array of the result. *)
Lemma Combine_range_in_place h0 other n : ∀ i res h,
  wf h0 other → preserved h0 h → wf h res → i + n = len other →
  ptr res = Some (length h0) → length h = S (length h0) →
  len res + n ≤ cap res →
  ∃ res' h',
    Combine_range other n i res h = Some (res', h') ∧
    ptr res' = Some (length h0) ∧ off res' = off res ∧
    cap res' = cap res ∧ length h' = S (length h0) ∧
    len res' ≤ len res + n ∧ (1 ≤ len res → 1 ≤ len res').
Proof.
  induction n as [|n IH]; intros i res h Hwo Hp Hwr Hn Hptr Hlen Hcap;
    simpl.
  - eexists _, _. split; [reflexivity|]. split_and!; try done; lia.
  - pose proof (wf_preserved _ _ _ Hp Hwo) as Hwo'.
    destruct (elems h0 other !! i) as [k|] eqn:Ek; last first.
    { apply lookup_ge_None in Ek. rewrite length_elems in Ek by done. lia. }
    assert (Hload : load other i h = Some (k, h)).
    { unfold load. rewrite decide_True by lia.
      rewrite (array_preserved h0) by done.
      unfold elems in Ek. rewrite lookup_take_lt, lookup_drop in Ek by lia.
      by rewrite Ek. }
    unfold bind at 1. rewrite Hload.
    destruct (Add_spec h res k Hwr)
      as (res1 & h1 & HAdd & Hwf1 & Hel1 & Hm1 & Hptr1 & _).
    unfold bind at 1. rewrite HAdd.
    pose proof (length_elems h1 res1 Hwf1) as Hl1.
    pose proof (length_elems h res Hwr) as Hl.
    destruct (Add_elems_length k (elems h res)) as [Hle Hge].
    rewrite <- Hel1, Hl1, Hl in Hle. rewrite <- Hel1, Hl1 in Hge.
    destruct Hptr1 as [(E1 & E2 & E3 & E4)|(_ & _ & E)]; [|lia].
    assert (Hp1 : preserved h0 h1).
    { eapply preserved_modifies; [done..|]. by exists (length h0). }
    destruct (IH (S i) res1 h1)
      as (res' & h' & HC & ? & ? & ? & ? & ? & ?); [done..|lia|congruence|
                                                    lia|lia|].
    exists res', h'. split_and!; try done; try congruence; lia.
Qed.

(** *** Further properties of the methods *)

(** X1.  [Add] never panics on a well-formed header, never leaves the
    variable empty, lengthens it by at most one, and stores no key other
    than [new] and keys that were stored before. *)
Theorem Add_no_new_keys h wk new :
  wf h wk →
  ∃ wk' h',
    Add new wk h = Some (wk', h') ∧ wf h' wk' ∧
    1 ≤ len wk' ≤ S (len wk) ∧
    ∀ x, x ∈ elems h' wk' → x = new ∨ x ∈ elems h wk.
Proof.
  intros Hwf.
  destruct (Add_spec h wk new Hwf) as (wk' & h' & HAdd & Hwf' & Hel & _).
  exists wk', h'. split_and!; [done..| | |].
  - rewrite <- (length_elems h' wk'), Hel by done.
    apply Add_elems_length.
  - rewrite <- (length_elems h' wk'), Hel, <- (length_elems h wk) by done.
    apply Add_elems_length.
  - intros x. rewrite Hel. apply Add_elems_subset.
Qed.

(** X2.  [Add] on a full slice, with a key that is incomparable with every
    stored key, moves to a newly allocated array: the store only gains
    that array, so a variable still holding the old header shows the old
    elements, and the new header shows them followed by [new]. *)
Theorem Add_full_allocates h wk new :
  wf h wk → len wk = cap wk →
  (∀ e, e ∈ elems h wk → SubsetOf e new = false ∧ SubsetOf new e = false) →
  ∃ wk' a,
    Add new wk h = Some (wk', h ++ [a]) ∧
    ptr wk' = Some (length h) ∧
    elems (h ++ [a]) wk' = elems h wk ++ [new] ∧
    elems (h ++ [a]) wk = elems h wk.
Proof.
  intros Hwf Hfull Hinc. rewrite Add_full_eval by done.
  eexists _, _. split_and!; [done..| |].
  - unfold elems at 1. rewrite array_alloc. simpl.
    rewrite (cons_middle new), app_assoc.
    apply take_app_length'. rewrite length_app, length_elems by done.
    simpl. lia.
  - apply elems_preserved; [apply preserved_app|done].
Qed.

(** X3.  In every other case [Add] works in place: with spare capacity, or
    with a stored key that is a subset or a superset of [new], the header
    keeps its array, offset and capacity and nothing is allocated. *)
Theorem Add_in_place h wk new :
  wf h wk →
  len wk < cap wk ∨
  (∃ e, e ∈ elems h wk ∧
        (SubsetOf e new = true ∨ SubsetOf new e = true)) →
  ∃ wk' h',
    Add new wk h = Some (wk', h') ∧
    ptr wk' = ptr wk ∧ off wk' = off wk ∧ cap wk' = cap wk ∧
    length h' = length h.
Proof.
  intros Hwf Hcase.
  destruct (Add_spec h wk new Hwf)
    as (wk' & h' & HAdd & Hwf' & Hel & _ & Hptr & Hsame).
  exists wk', h'. split; [done|].
  destruct Hptr as [(? & ? & ? & ?)|(_ & _ & Hlen)]; [done|exfalso].
  pose proof Hwf as (Hlc & _).
  pose proof (length_elems h' wk' Hwf') as Hl'. rewrite Hel in Hl'.
  pose proof (length_elems h wk Hwf) as Hl.
  destruct (Add_elems_length new (elems h wk)) as [Hle _].
  destruct Hcase as [Hspare|(e & Hin & He)]; [lia|].
  destruct (scan_elems new (elems h wk)).2 eqn:Er.
  { rewrite (Hsame eq_refl) in Hlen. lia. }
  assert (∀ x, x ∈ elems h wk → SubsetOf x new = false) as Hnr.
  { intros x Hx. destruct (SubsetOf x new) eqn:Hxn; [|done].
    assert ((scan_elems new (elems h wk)).2 = true)
      by (apply scan_elems_redundant_iff; eauto). congruence. }
  destruct He as [He|He]; [by rewrite Hnr in He|].
  rewrite Add_elems_not_redundant, length_app in Hl' by done.
  assert (length (filter (λ x, SubsetOf new x = false) (elems h wk))
          < length (elems h wk)).
  { eapply length_filter_lt; [done|]. by rewrite He. }
  simpl in Hl'. lia.
Qed.

(** X4.  With both arguments non-empty, [Combine] allocates exactly one
    array, of capacity [len(wk) + len(other)], and the result stays in it:
    no [Add] of the loop outgrows it. *)
Theorem Combine_single_allocation h wk other :
  wf h wk → wf h other → len wk ≠ 0 → len other ≠ 0 →
  ∃ res h',
    Combine wk other h = Some (res, h') ∧
    length h' = S (length h) ∧
    ptr res = Some (length h) ∧ off res = 0 ∧
    cap res = len wk + len other ∧
    1 ≤ len res ≤ len wk + len other.
Proof.
  intros Hw Ho E1 E2. unfold Combine. rewrite !decide_False by done.
  unfold bind at 1, make. rewrite decide_True by lia.
  unfold bind at 1, alloc, ret. unfold bind at 1, copy. simpl.
  rewrite array_alloc, set_array_alloc.
  set (a := take (len wk `min` len wk) _ ++ _).
  set (res0 := Slice (Some (length h)) 0 (len wk) (len wk + len other)).
  assert (Hla : length a = len wk + len other).
  { unfold a. rewrite Nat.min_id, drop_replicate. simpl.
    rewrite length_app, length_replicate, length_take.
    rewrite (elems_preserved h) by (done || apply preserved_app).
    rewrite length_elems by done. lia. }
  assert (Hw0 : wf (h ++ [a]) res0).
  { unfold res0. rewrite <- Hla. apply wf_alloc. lia. }
  destruct (Combine_range_in_place h other (len other) 0 res0 (h ++ [a]))
    as (res' & h' & HC & ? & ? & ? & ? & ? & Hge);
    [done|apply preserved_app|done|done|done|
     rewrite length_app; simpl; lia|simpl; lia|].
  exists res', h'. simpl in *. split_and!; try done; lia.
Qed.

Section MoreLaws.
Hypothesis SubsetOf_refl : ∀ a : ColSet, SubsetOf a a = true.
Hypothesis SubsetOf_trans : ∀ a b c : ColSet,
  SubsetOf a b = true → SubsetOf b c = true → SubsetOf a c = true.
Hypothesis SubsetOf_antisym : ∀ a b : ColSet,
  SubsetOf a b = true → SubsetOf b a = true → a = b.

(** X5.  On an antichain [Add] is idempotent: a second [Add] of the same
    key returns early and leaves the header and the whole store as the
    first call left them. *)
Theorem Add_idempotent h wk k :
  wf h wk → antichain (elems h wk) →
  ∃ wk' h',
    Add k wk h = Some (wk', h') ∧ Add k wk' h' = Some (wk', h').
Proof using SubsetOf_refl SubsetOf_trans.
  intros Hwf Hac.
  destruct (Add_spec h wk k Hwf) as (wk' & h' & HAdd & Hwf' & Hel & _).
  exists wk', h'. split; [done|].
  destruct (Add_elems_has_subset SubsetOf_refl k (elems h wk))
    as (e & Hin & He).
  apply (Add_redundant_eval SubsetOf_trans h' wk' k e); [done| |by rewrite Hel
                                                         |done].
  rewrite Hel. by apply Add_elems_antichain.
Qed.

(** X6.  Whatever the stored keys, after [Add(k)] the query
    [ContainsSubsetOf(k)] answers [true]. *)
Theorem Add_then_ContainsSubsetOf h wk k :
  wf h wk →
  ∃ wk' h',
    Add k wk h = Some (wk', h') ∧
    ContainsSubsetOf wk' k h' = Some (true, h').
Proof using SubsetOf_refl.
  intros Hwf.
  destruct (Add_spec h wk k Hwf) as (wk' & h' & HAdd & Hwf' & Hel & _).
  exists wk', h'. split; [done|].
  rewrite ContainsSubsetOf_spec by done. do 2 f_equal.
  apply existsb_SubsetOf. rewrite Hel. by apply Add_elems_has_subset.
Qed.

(** X7.  [Add] never weakens the set: a candidate for which
    [ContainsSubsetOf] answered [true] before [Add(k)] still gets [true]
    after it, whatever [k] and whatever the stored keys. *)
Theorem Add_keeps_implied h wk k candidate :
  wf h wk →
  ContainsSubsetOf wk candidate h = Some (true, h) →
  ∃ wk' h',
    Add k wk h = Some (wk', h') ∧
    ContainsSubsetOf wk' candidate h' = Some (true, h').
Proof using SubsetOf_trans.
  intros Hwf Hc. rewrite ContainsSubsetOf_spec in Hc by done.
  assert (existsb (λ e, SubsetOf e candidate) (elems h wk) = true) as Hex
    by congruence.
  apply existsb_SubsetOf in Hex.
  destruct (Add_spec h wk k Hwf) as (wk' & h' & HAdd & Hwf' & Hel & _).
  exists wk', h'. split; [done|].
  rewrite ContainsSubsetOf_spec by done. do 2 f_equal.
  apply existsb_SubsetOf. rewrite Hel. by apply Add_elems_still_covers.
Qed.

(** X8.  On antichains the two orders of [Combine] store the same keys:
    a column set is among the elements of [wk.Combine(other)] exactly when
    it is among those of [other.Combine(wk)]. *)
Theorem Combine_order_invariant h wk other :
  wf h wk → wf h other →
  antichain (elems h wk) → antichain (elems h other) →
  ∃ res1 h1 res2 h2,
    Combine wk other h = Some (res1, h1) ∧
    Combine other wk h = Some (res2, h2) ∧
    ∀ x, x ∈ elems h1 res1 ↔ x ∈ elems h2 res2.
Proof using SubsetOf_refl SubsetOf_trans SubsetOf_antisym.
  intros Hw Ho Haw Hao.
  destruct (Combine_spec h wk other Hw Ho) as (res1 & h1 & HC1 & _ & _ & E1).
  destruct (Combine_spec h other wk Ho Hw) as (res2 & h2 & HC2 & _ & _ & E2).
  exists res1, h1, res2, h2. split_and!; [done..|]. intros x.
  rewrite E1, E2.
  rewrite !(Combine_elems_minimal SubsetOf_refl SubsetOf_trans
              SubsetOf_antisym) by done.
  apply minimal_equiv. intros y. rewrite !elem_of_app. tauto.
Qed.

(** X9.  [Combine] loses no guarantee: for every key of either argument,
    antichain or not, [ContainsSubsetOf] on the result answers [true]. *)
Theorem Combine_covers_inputs h wk other :
  wf h wk → wf h other →
  ∃ res h',
    Combine wk other h = Some (res, h') ∧
    ∀ u, u ∈ elems h wk ++ elems h other →
         ContainsSubsetOf res u h' = Some (true, h').
Proof using SubsetOf_refl SubsetOf_trans.
  intros Hw Ho.
  destruct (Combine_spec h wk other Hw Ho) as (res & h' & HC & Hwr & _ & E).
  exists res, h'. split; [done|]. intros u Hu.
  rewrite ContainsSubsetOf_spec by done. do 2 f_equal.
  apply existsb_SubsetOf. rewrite E. unfold Combine_elems.
  destruct (elems h wk) as [|y l] eqn:El.
  - simpl in Hu. eauto.
  - by apply foldl_Add_elems_covers_keys.
Qed.

(** X10.  On an antichain the order of a sequence of [Add]s does not matter
    for the keys stored at the end: two sequences with the same keys leave
    the same elements, up to their order. *)
Theorem Add_all_order_irrelevant h wk ks ks' :
  wf h wk → antichain (elems h wk) → ks ≡ₚ ks' →
  ∃ wk1 h1 wk2 h2,
    Add_all ks wk h = Some (wk1, h1) ∧
    Add_all ks' wk h = Some (wk2, h2) ∧
    ∀ x, x ∈ elems h1 wk1 ↔ x ∈ elems h2 wk2.
Proof using SubsetOf_refl SubsetOf_trans SubsetOf_antisym.
  intros Hwf Hac Hperm.
  destruct (Add_all_elems ks h wk Hwf) as (wk1 & h1 & HA1 & _ & E1).
  destruct (Add_all_elems ks' h wk Hwf) as (wk2 & h2 & HA2 & _ & E2).
  exists wk1, h1, wk2, h2. split_and!; [done..|]. intros x.
  rewrite E1, E2, !foldl_Add_elems_minimal by done.
  apply minimal_equiv. intros y. rewrite !elem_of_app.
  by rewrite Hperm.
Qed.
End MoreLaws.
End MoreOfWeakKeys.

(** ** Weak keys over the bitset column set *)

Section MoreOfBitset.
#[local] Existing Instances bitset_ColSet doubling.

Ltac by_wfb := apply wfb_spec; vm_compute; reflexivity.
Ltac by_antichainb := apply antichainb_spec; vm_compute; reflexivity.

Lemma Add_no_new_keys_witness :
  ∃ wk' h',
    Add (cols [1]) keys_12_3 store_12_3 = Some (wk', h') ∧ wf h' wk' ∧
    1 ≤ len wk' ≤ S (len keys_12_3) ∧
    ∀ x, x ∈ elems h' wk' →
         x = cols [1] ∨ x ∈ elems store_12_3 keys_12_3.
Proof. apply (Add_no_new_keys store_12_3 keys_12_3 (cols [1])). by_wfb. Defined.

Lemma Add_full_allocates_witness :
  ∃ wk' a,
    Add (cols [4]) keys_12_3 store_12_3 = Some (wk', store_12_3 ++ [a]) ∧
    ptr wk' = Some (length store_12_3) ∧
    elems (store_12_3 ++ [a]) wk' =
      elems store_12_3 keys_12_3 ++ [cols [4]] ∧
    elems (store_12_3 ++ [a]) keys_12_3 = elems store_12_3 keys_12_3.
Proof.
  apply (Add_full_allocates store_12_3 keys_12_3 (cols [4]));
    [by_wfb|reflexivity|].
  intros e Hin. change (e ∈ [cols [1; 2]; cols [3]]) in Hin.
  apply elem_of_cons in Hin as [->|Hin]; [by vm_compute|].
  apply list_elem_of_singleton in Hin as ->. by vm_compute.
Defined.

Lemma Add_in_place_witness :
  ∃ wk' h',
    Add (cols [1]) keys_first store_12_1 = Some (wk', h') ∧
    ptr wk' = ptr keys_first ∧ off wk' = off keys_first ∧
    cap wk' = cap keys_first ∧ length h' = length store_12_1.
Proof.
  apply (Add_in_place store_12_1 keys_first (cols [1])); [by_wfb|].
  right. exists (cols [1; 2]). split; [by left|by right].
Defined.

Lemma Combine_single_allocation_witness :
  ∃ res h',
    Combine keys_first keys_second store_1_2 = Some (res, h') ∧
    length h' = S (length store_1_2) ∧
    ptr res = Some (length store_1_2) ∧ off res = 0 ∧
    cap res = len keys_first + len keys_second ∧
    1 ≤ len res ≤ len keys_first + len keys_second.
Proof.
  apply (Combine_single_allocation store_1_2 keys_first keys_second);
    [by_wfb|by_wfb|discriminate|discriminate].
Defined.

Lemma Add_idempotent_witness :
  ∃ wk' h',
    Add (cols [1]) keys_12_3 store_12_3 = Some (wk', h') ∧
    Add (cols [1]) wk' h' = Some (wk', h').
Proof.
  apply (Add_idempotent bitset_refl bitset_trans store_12_3 keys_12_3
           (cols [1])); [by_wfb|by_antichainb].
Defined.

Lemma Add_then_ContainsSubsetOf_witness :
  ∃ wk' h',
    Add (cols [1]) keys_12_3_1 store_12_3_1 = Some (wk', h') ∧
    ContainsSubsetOf wk' (cols [1]) h' = Some (true, h').
Proof.
  apply (Add_then_ContainsSubsetOf bitset_refl store_12_3_1 keys_12_3_1
           (cols [1])).
  by_wfb.
Defined.

Lemma Add_keeps_implied_witness :
  ∃ wk' h',
    Add (cols [1]) keys_12_3 store_12_3 = Some (wk', h') ∧
    ContainsSubsetOf wk' (cols [3; 4]) h' = Some (true, h').
Proof.
  apply (Add_keeps_implied bitset_trans store_12_3 keys_12_3 (cols [1])
           (cols [3; 4])); [by_wfb|reflexivity].
Defined.

Lemma Combine_order_invariant_witness :
  ∃ res1 h1 res2 h2,
    Combine keys_first keys_second store_12_1 = Some (res1, h1) ∧
    Combine keys_second keys_first store_12_1 = Some (res2, h2) ∧
    ∀ x, x ∈ elems h1 res1 ↔ x ∈ elems h2 res2.
Proof.
  apply (Combine_order_invariant bitset_refl bitset_trans bitset_antisym
           store_12_1 keys_first keys_second);
    [by_wfb|by_wfb|by_antichainb|by_antichainb].
Defined.

Lemma Combine_covers_inputs_witness :
  ∃ res h',
    Combine keys_first keys_second store_12_1 = Some (res, h') ∧
    ∀ u, u ∈ elems store_12_1 keys_first ++ elems store_12_1 keys_second →
         ContainsSubsetOf res u h' = Some (true, h').
Proof.
  apply (Combine_covers_inputs bitset_refl bitset_trans store_12_1
           keys_first keys_second); by_wfb.
Defined.

Lemma Add_all_order_irrelevant_witness :
  ∃ wk1 h1 wk2 h2,
    Add_all [cols [1]; cols [4]] keys_12_3 store_12_3 = Some (wk1, h1) ∧
    Add_all [cols [4]; cols [1]] keys_12_3 store_12_3 = Some (wk2, h2) ∧
    ∀ x, x ∈ elems h1 wk1 ↔ x ∈ elems h2 wk2.
Proof.
  apply (Add_all_order_irrelevant bitset_refl bitset_trans bitset_antisym
           store_12_3 keys_12_3); [by_wfb|by_antichainb|constructor].
Defined.
End MoreOfBitset.

(** ** The lexer *)

Module LexerProofs.
Import stdpp.strings.
Import Lexer.

(** ** Go values *)

Lemma wrap_int_id x : (- 2 ^ 63 ≤ x ≤ maxInt)%Z → wrap_int x = x.
Proof.
  unfold wrap_int, maxInt. intros Hx.
  rewrite Z.mod_small by lia. lia.
Qed.

Lemma goindex_nonneg {A} (s : list A) i :
  (0 ≤ i)%Z → goindex s i = s !! Z.to_nat i.
Proof. intros Hi. unfold goindex. by rewrite decide_True. Qed.

Lemma slice_from_in_range {A} (s : list A) lo :
  (0 ≤ lo ≤ golen s)%Z → slice_from s lo = Some (drop (Z.to_nat lo) s).
Proof. intros H. unfold slice_from. by rewrite decide_True. Qed.

Lemma slice_to_in_range {A} (s : list A) hi :
  (0 ≤ hi ≤ golen s)%Z → slice_to s hi = Some (take (Z.to_nat hi) s).
Proof. intros H. unfold slice_to. by rewrite decide_True. Qed.

Lemma IndexByte_range s c : (-1 ≤ IndexByte s c < golen s ∨ s = [])%Z.
Proof.
  induction s as [|x s IH]; [by right|left]. unfold golen in *. simpl.
  destruct (decide (x = c)); [lia|].
  destruct (decide (IndexByte s c = -1)%Z); [lia|].
  destruct IH as [IH| ->]; [lia|done].
Qed.

Lemma IndexByte_absent s c : IndexByte s c = (-1)%Z ↔ c ∉ s.
Proof.
  induction s as [|x s IH]; simpl.
  - split; [intros _; apply not_elem_of_nil|done].
  - destruct (decide (x = c)) as [->|Hne].
    + split; [done|]. intros Hn. destruct Hn. by left.
    + destruct (decide (IndexByte s c = -1)%Z) as [E|E].
      * split; [|done]. intros _. rewrite not_elem_of_cons.
        split; [done|by apply IH].
      * split.
        -- destruct (IndexByte_range s c) as [?| ->]; [lia|done].
        -- rewrite not_elem_of_cons. intros [_ Hn]. by apply IH in Hn.
Qed.

Lemma IndexByte_present s c :
  IndexByte s c ≠ (-1)%Z →
  (0 ≤ IndexByte s c < golen s)%Z ∧
  s !! Z.to_nat (IndexByte s c) = Some c ∧
  c ∉ take (Z.to_nat (IndexByte s c)) s.
Proof.
  induction s as [|x s IH]; simpl; [done|]. unfold golen in *.
  destruct (decide (x = c)) as [->|Hne].
  - intros _. simpl. split_and!; [lia|lia|done|apply not_elem_of_nil].
  - destruct (decide (IndexByte s c = -1)%Z) as [E|E]; [done|]. intros _.
    destruct (IH E) as ((H0 & H1) & H2 & H3). simpl.
    replace (Z.to_nat (IndexByte s c + 1)) with (S (Z.to_nat (IndexByte s c)))
      by lia.
    simpl. split_and!; [lia|lia|done|].
    rewrite not_elem_of_cons. done.
Qed.

Lemma LastIndexByte_range s c : (-1 ≤ LastIndexByte s c < golen s ∨ s = [])%Z.
Proof.
  induction s as [|x s IH]; [by right|left]. unfold golen in *. simpl.
  destruct (decide (LastIndexByte s c = -1)%Z).
  - destruct (decide (x = c)); lia.
  - destruct IH as [IH| ->]; [lia|done].
Qed.

Lemma LastIndexByte_absent s c : LastIndexByte s c = (-1)%Z ↔ c ∉ s.
Proof.
  induction s as [|x s IH]; simpl.
  - split; [intros _; apply not_elem_of_nil|done].
  - destruct (decide (LastIndexByte s c = -1)%Z) as [E|E].
    + destruct (decide (x = c)) as [->|Hne].
      * split; [done|]. intros Hn. destruct Hn. by left.
      * split; [|done]. intros _. rewrite not_elem_of_cons.
        split; [done|by apply IH].
    + split.
      * destruct (LastIndexByte_range s c) as [?| ->]; [lia|done].
      * rewrite not_elem_of_cons. intros [_ Hn]. by apply IH in Hn.
Qed.

Lemma LastIndexByte_present s c :
  LastIndexByte s c ≠ (-1)%Z →
  (0 ≤ LastIndexByte s c < golen s)%Z ∧
  s !! Z.to_nat (LastIndexByte s c) = Some c ∧
  c ∉ drop (S (Z.to_nat (LastIndexByte s c))) s.
Proof.
  induction s as [|x s IH]; simpl; [done|]. unfold golen in *.
  destruct (decide (LastIndexByte s c = -1)%Z) as [E|E].
  - destruct (decide (x = c)) as [->|Hne]; [|done]. intros _. simpl.
    split_and!; [lia|lia|done|]. rewrite drop_0. by apply LastIndexByte_absent.
  - intros _. destruct (IH E) as ((H0 & H1) & H2 & H3).
    replace (Z.to_nat (LastIndexByte s c + 1))
      with (S (Z.to_nat (LastIndexByte s c))) by lia.
    simpl. split_and!; [lia|lia|done|done].
Qed.

Section Lexing.
Context {SymUnion TInt TSerial Statement : Type}.
Context `{!TokenIDs} `{!ZeroValue SymUnion}.
Implicit Types (l : lexer SymUnion TInt TSerial Statement).
Implicit Types (lval t : sqlSymType SymUnion).

(** ** [Lex] *)

Lemma lookahead_cases i n :
  lookahead i n = i ∨
  (lookahead i n = NOT_LA ∧ i = NOT) ∨
  (lookahead i n = WITH_LA ∧ i = WITH) ∨
  (lookahead i n = AS_LA ∧ i = AS).
Proof. unfold lookahead. repeat case_decide; auto. Qed.

Lemma lookahead_other i n :
  ¬ (i = NOT ∨ i = WITH ∨ i = AS) → lookahead i n = i.
Proof. unfold lookahead. intros Hi. repeat case_decide; tauto. Qed.

(** X11.  [Lex] never panics while [lastPos] is at least -1 and two below
    the largest [int]: it advances [lastPos] by one and changes nothing
    else of the lexer, returns the [id] it leaves in [lval], and leaves in
    [lval] either the next token with its position, text and payload as
    scanned and its identifier after the lookahead, or, past the last
    token, identifier 0 at the end of the input with the text EOF. *)
Theorem Lex_step lval l :
  (-1 ≤ lastPos l)%Z → (lastPos l + 2 ≤ maxInt)%Z →
  ∃ r lval',
    Lex lval l = Some (r, lval', set_lastPos l (lastPos l + 1)) ∧
    r = id lval' ∧
    match tokens l !! Z.to_nat (lastPos l + 1) with
    | None => lval' = SqlSym 0 (golen (in_ l)) (lit "EOF") (union lval)
    | Some t =>
        lval' = SqlSym
                  (lookahead (id t)
                     (default 0%Z
                        (id <$> tokens l !! S (Z.to_nat (lastPos l + 1)))))
                  (pos t) (str t) (union t)
    end.
Proof.
  intros Hlo Hhi. unfold Lex, int_add. simpl.
  assert (Hmax : maxInt = (2 ^ 63 - 1)%Z) by done.
  rewrite (wrap_int_id (lastPos l + 1)) by lia.
  destruct (tokens l !! Z.to_nat (lastPos l + 1)) as [t|] eqn:Et.
  - pose proof (lookup_lt_Some _ _ _ Et) as Hlt.
    rewrite decide_False by (unfold golen; lia).
    rewrite (goindex_nonneg _ (lastPos l + 1)), Et by lia. simpl.
    destruct (decide (id t = NOT ∨ id t = WITH ∨ id t = AS)) as [Hk|Hk].
    + rewrite (wrap_int_id (lastPos l + 1 + 1)) by lia.
      replace (Z.to_nat (lastPos l + 1 + 1))
        with (S (Z.to_nat (lastPos l + 1))) by lia.
      destruct (tokens l !! S (Z.to_nat (lastPos l + 1))) as [t'|] eqn:Et'.
      * pose proof (lookup_lt_Some _ _ _ Et') as Hlt'.
        rewrite decide_True by (unfold golen; lia).
        rewrite goindex_nonneg by lia.
        replace (Z.to_nat (lastPos l + 1 + 1))
          with (S (Z.to_nat (lastPos l + 1))) by lia.
        rewrite Et'. simpl. by eexists _, _.
      * apply lookup_ge_None in Et'.
        rewrite decide_False by (unfold golen; lia).
        simpl. by eexists _, _.
    + rewrite lookahead_other by done.
      exists (id t), t. split_and!; [done..|]. by destruct t.
  - apply lookup_ge_None in Et.
    rewrite decide_True by (unfold golen; lia).
    by eexists _, _.
Qed.

Lemma lookahead_ids_drop (toks : list (sqlSymType SymUnion)) k t :
  toks !! k = Some t →
  lookahead_ids (drop k toks) =
    lookahead (id t) (default 0%Z (id <$> toks !! S k))
    :: lookahead_ids (drop (S k) toks).
Proof.
  intros Et. rewrite (drop_S _ _ _ Et). simpl. f_equal. f_equal.
  replace (toks !! S k) with (drop (S k) toks !! 0)
    by (rewrite lookup_drop; f_equal; lia).
  by destruct (drop (S k) toks).
Qed.

Lemma Lex_times_from n : ∀ k lval l,
  lastPos l = (Z.of_nat k - 1)%Z → k + n = length (tokens l) →
  (golen (tokens l) + 1 ≤ maxInt)%Z →
  ∃ lval',
    Lex_times n lval l =
      Some (lookahead_ids (drop k (tokens l)), lval',
            set_lastPos l (golen (tokens l) - 1)).
Proof.
  induction n as [|n IH]; intros k lval l Hpos Hk Hmax; simpl.
  - exists lval. rewrite drop_ge by lia. simpl. do 2 f_equal.
    destruct l. unfold set_lastPos, golen in *. simpl in *. f_equal. lia.
  - destruct (Lex_step lval l) as (r & lval1 & -> & Hr & Hm);
      [unfold golen in *; lia..|].
    replace (Z.to_nat (lastPos l + 1)) with k in Hm by lia.
    destruct (tokens l !! k) as [t|] eqn:Et; last first.
    { apply lookup_ge_None in Et. lia. }
    simpl.
    destruct (IH (S k) lval1 (set_lastPos l (lastPos l + 1)))
      as (lval' & ->); [simpl; lia|simpl; lia|done|].
    simpl. exists lval'. rewrite (lookahead_ids_drop _ _ _ Et).
    subst r lval1. simpl. done.
Qed.

(** X12.  From a lexer that has handed out nothing yet, as many calls of
    [Lex] as there are tokens return the identifiers of the tokens in
    order, each after the lookahead at its successor, and leave [lastPos]
    at the last token. *)
Theorem Lex_stream lval l :
  lastPos l = (-1)%Z → (golen (tokens l) + 1 ≤ maxInt)%Z →
  ∃ lval',
    Lex_times (length (tokens l)) lval l =
      Some (lookahead_ids (tokens l), lval',
            set_lastPos l (golen (tokens l) - 1)).
Proof.
  intros Hpos Hmax.
  destruct (Lex_times_from (length (tokens l)) 0 lval l) as (lval' & E);
    [simpl; lia|done|done|].
  by exists lval'.
Qed.

(** X13.  Once the tokens are used up [Lex] keeps answering 0: any number
    of further calls, short of overflowing [lastPos], return 0 each, and
    leave [lval] with identifier 0, the length of the input as position
    and the text EOF. *)
Theorem Lex_exhausted n lval l :
  (-1 ≤ lastPos l)%Z → (golen (tokens l) ≤ lastPos l + 1)%Z →
  (lastPos l + Z.of_nat n + 1 ≤ maxInt)%Z →
  Lex_times n lval l =
    Some (replicate n 0%Z,
          match n with
          | O => lval
          | S _ => SqlSym 0 (golen (in_ l)) (lit "EOF") (union lval)
          end,
          set_lastPos l (lastPos l + Z.of_nat n)).
Proof.
  revert lval l. induction n as [|n IH]; intros lval l Hlo Hex Hhi; simpl.
  - do 2 f_equal. destruct l. unfold set_lastPos. simpl. f_equal. lia.
  - destruct (Lex_step lval l) as (r & lval1 & -> & Hr & Hm); [lia..|].
    rewrite lookup_ge_None_2 in Hm by (unfold golen in *; lia).
    subst. simpl. rewrite IH by (simpl; lia). simpl.
    do 2 f_equal.
    + by destruct n.
    + unfold set_lastPos. simpl. f_equal. lia.
Qed.

Lemma lastToken_set_lastPos l p :
  (0 ≤ p)%Z →
  lastToken (set_lastPos l p) =
    Some (default (eof_token l) (tokens l !! Z.to_nat p)).
Proof.
  intros Hp. unfold lastToken. simpl. rewrite decide_False by lia.
  destruct (tokens l !! Z.to_nat p) as [t|] eqn:Et.
  - pose proof (lookup_lt_Some _ _ _ Et).
    rewrite decide_False by (unfold golen; lia).
    by rewrite goindex_nonneg.
  - apply lookup_ge_None in Et.
    by rewrite decide_True by (unfold golen; lia).
Qed.

(** X14.  [lastToken] after [Lex] is the token as the scanner produced it:
    it has the position and the text [Lex] left in [lval], and its
    identifier is the one [Lex] returned unless the lookahead replaced
    NOT, WITH or AS by its lookahead variant. *)
Theorem lastToken_after_Lex lval l :
  (-1 ≤ lastPos l)%Z → (lastPos l + 2 ≤ maxInt)%Z →
  ∃ r lval' l' t,
    Lex lval l = Some (r, lval', l') ∧ lastToken l' = Some t ∧
    pos t = pos lval' ∧ str t = str lval' ∧
    (id t = r ∨ (r = NOT_LA ∧ id t = NOT) ∨ (r = WITH_LA ∧ id t = WITH) ∨
     (r = AS_LA ∧ id t = AS)).
Proof.
  intros Hlo Hhi.
  destruct (Lex_step lval l) as (r & lval' & E & Hr & Hm); [done..|].
  exists r, lval', (set_lastPos l (lastPos l + 1)).
  rewrite lastToken_set_lastPos by lia.
  destruct (tokens l !! Z.to_nat (lastPos l + 1)) as [t|] eqn:Et.
  - exists t. subst. simpl. split_and!; [done..|].
    destruct (lookahead_cases (id t)
                (default 0%Z
                   (id <$> tokens l !! S (Z.to_nat (lastPos l + 1)))))
      as [->|[[-> ->]|[[-> ->]|[-> ->]]]]; auto.
  - exists (eof_token l). subst. simpl. split_and!; auto.
Qed.

(** X15.  A keyword at the very end of the tokens is never replaced: when
    the identifiers the lookahead looks for are all different from 0,
    [Lex] on the last token returns that token's own identifier. *)
Theorem Lex_last_token lval l t :
  (-1 ≤ lastPos l)%Z → (lastPos l + 2 = golen (tokens l))%Z →
  (golen (tokens l) ≤ maxInt)%Z →
  Forall (λ k, k ≠ 0%Z)
    [OF; BETWEEN; IN; LIKE; ILIKE; SIMILAR; TIME; ORDINALITY] →
  tokens l !! Z.to_nat (lastPos l + 1) = Some t →
  Lex lval l = Some (id t, t, set_lastPos l (lastPos l + 1)).
Proof.
  intros Hlo Hlast Hmax Hnz Et.
  destruct (Lex_step lval l) as (r & lval' & -> & Hr & Hm); [lia..|].
  rewrite Et in Hm.
  rewrite lookup_ge_None_2 in Hm by (unfold golen in *; lia).
  simpl in Hm.
  assert (lookahead (id t) 0 = id t) as Hla.
  { apply Forall_cons in Hnz as [H1 Hnz]. apply Forall_cons in Hnz as [H2 Hnz].
    apply Forall_cons in Hnz as [H3 Hnz]. apply Forall_cons in Hnz as [H4 Hnz].
    apply Forall_cons in Hnz as [H5 Hnz]. apply Forall_cons in Hnz as [H6 Hnz].
    apply Forall_cons in Hnz as [H7 Hnz]. apply Forall_cons in Hnz as [H8 _].
    unfold lookahead.
    destruct (decide (id t = AS));
      [by rewrite decide_False by congruence|].
    destruct (decide (id t = NOT));
      [by rewrite decide_False
         by (intros [?|[?|[?|[?|?]]]]; congruence)|].
    destruct (decide (id t = WITH)); [|done].
    by rewrite decide_False by (intros [?|?]; congruence). }
  rewrite Hla in Hm. subst. simpl. by destruct t.
Qed.


Lemma Lex_times_app n m lval l :
  Lex_times (n + m) lval l =
    '(rs, lval, l) ← Lex_times n lval l;
    '(rs', lval, l) ← Lex_times m lval l;
    Some (rs ++ rs', lval, l).
Proof.
  revert lval l. induction n as [|n IH]; intros lval l; cbn.
  - by destruct (Lex_times m lval l) as [[[??]?]|].
  - destruct (Lex lval l) as [[[r lval1] l1]|]; [|done]. cbn.
    rewrite IH.
    destruct (Lex_times n lval1 l1) as [[[rs lval2] l2]|]; [|done]. cbn.
    by destruct (Lex_times m lval2 l2) as [[[??]?]|].
Qed.

(** X16.  [init] starts the lexer afresh, whatever it held: no error is
    recorded, and the calls of [Lex] that follow return the identifiers of
    the new tokens in order, each after the lookahead at its successor,
    and then 0 for as long as [lastPos] does not overflow. *)
Theorem init_then_Lex n lval l sql toks nakedInt nakedSerial :
  (golen toks + Z.of_nat n + 1 ≤ maxInt)%Z →
  lastError (init l sql toks nakedInt nakedSerial) = None ∧
  ∃ lval',
    Lex_times (length toks + n) lval (init l sql toks nakedInt nakedSerial)
    = Some (lookahead_ids toks ++ replicate n 0%Z, lval',
            set_lastPos (init l sql toks nakedInt nakedSerial)
              (golen toks + Z.of_nat n - 1)).
Proof.
  intros Hmax. split; [done|].
  set (l0 := init l sql toks nakedInt nakedSerial).
  rewrite Lex_times_app.
  destruct (Lex_stream lval l0) as (lval1 & E);
    [done|cbn; unfold golen in *; lia|].
  cbn in E. rewrite E. cbn.
  rewrite Lex_exhausted by (cbn; unfold golen in *; lia). cbn.
  eexists. do 2 f_equal. unfold set_lastPos. cbn. f_equal. lia.
Qed.

(** ** [Error] *)

Lemma lastToken_Some l : ∃ t, lastToken l = Some t.
Proof.
  unfold lastToken. destruct (decide (lastPos l < 0)%Z); [by eexists|].
  destruct (decide (golen (tokens l) ≤ lastPos l)%Z); [by eexists|].
  rewrite goindex_nonneg by lia.
  apply lookup_lt_is_Some_2. unfold golen in *. lia.
Qed.

(** [Error] with the steps that cannot fail carried out: what is left are
    the two slices at the position of the last token, the slice up to the
    end of its line, and the run of spaces. *)
Lemma Error_unfold e l :
  Error e l =
    t ← lastToken l;
    _ ← slice_from (in_ l) (pos t);
    _ ← slice_to (in_ l) (pos t);
    shown ← slice_to (in_ l) (line_end (in_ l) (pos t));
    spaces ← Repeat (lit " ")
                (int_sub (pos t) (line_start (in_ l) (pos t)));
    Some (set_lastError l
            (Some (ParseErr (error_msg e t) []
                     (lit "source SQL:" ++ [newline] ++ shown ++
                      [newline] ++ spaces ++ lit "^") []))).
Proof.
  unfold Error.
  assert (lastToken (initLastErr l) = lastToken l) as ->.
  { unfold initLastErr. by destruct (lastError l). }
  destruct (lastToken l) as [t|]; [|done]. cbn [mbind option_bind].
  assert (∃ err, lastError (initLastErr l) = Some err ∧
                 ∀ f, update_lastError f (initLastErr l)
                      = Some (set_lastError l (Some (f err))))
    as (err & _ & Hupd).
  { unfold initLastErr, update_lastError.
    destruct (lastError l) as [err|] eqn:E.
    - exists err. rewrite E. done.
    - exists new_parseErr. done. }
  assert (∀ m,
    set_hint [] (set_unimplementedFeature [] (set_detail m (set_msg
      (error_msg e t) err))) = ParseErr (error_msg e t) [] m []) as Hrec
    by done.
  assert ((if decide (id t = ERROR)
           then update_lastError (set_msg (str t)) (initLastErr l)
           else update_lastError
                  (set_msg (e ++ lit " at or near " ++ [quote] ++
                            str t ++ [quote])) (initLastErr l))
          = Some (set_lastError l (Some (set_msg (error_msg e t) err))))
    as ->.
  { unfold error_msg. destruct (decide (id t = ERROR)); apply Hupd. }
  cbn. unfold slice_from.
  destruct (decide (0 ≤ pos t ≤ golen (in_ l))%Z); [|done].
  rewrite (slice_to_in_range _ (pos t)) by done.
  cbn. unfold line_end, line_start.
  destruct (slice_to (in_ l) _) as [shown|]; [|done]. cbn.
  destruct (Repeat _ _) as [spaces|]; [|done]. cbn.
  rewrite Hrec, <- !app_assoc. cbn. by rewrite <- !app_assoc.
Qed.

Lemma concat_replicate_singleton {A} n (x : A) :
  concat (replicate n [x]) = replicate n x.
Proof. induction n as [|n IH]; cbn; [done|]. by rewrite IH. Qed.

Lemma Repeat_space n :
  (0 ≤ n ≤ maxInt)%Z →
  Repeat (lit " ") n = Some (replicate (Z.to_nat n) space).
Proof.
  intros Hn. change (lit " ") with [space]. unfold Repeat, golen.
  rewrite decide_True by (cbn; lia).
  by rewrite concat_replicate_singleton.
Qed.

(** [Error] with a last token inside the input. *)
Lemma Error_eval e l t :
  lastToken l = Some t →
  (0 ≤ pos t ≤ golen (in_ l))%Z → (golen (in_ l) ≤ maxInt)%Z →
  ∃ i j : nat,
    Error e l =
      Some (set_lastError l
              (Some (ParseErr (error_msg e t) []
                       (lit "source SQL:" ++ [newline] ++
                        take i (in_ l) ++ [newline] ++
                        replicate (Z.to_nat (pos t) - j) space ++ lit "^")
                       []))) ∧
    (j ≤ Z.to_nat (pos t) ≤ i) ∧ i ≤ length (in_ l) ∧
    (newline ∉ drop j (take i (in_ l))) ∧
    (j = 0 ∨ in_ l !! (j - 1) = Some newline) ∧
    (i = length (in_ l) ∨ in_ l !! i = Some newline).
Proof.
  intros Ht Hp Hmax. rewrite Error_unfold, Ht. cbn.
  assert (Hm : maxInt = (2 ^ 63 - 1)%Z) by done.
  rewrite slice_from_in_range by done. cbn.
  rewrite (slice_to_in_range _ (pos t)) by done. cbn.
  unfold golen in *.
  set (p := Z.to_nat (pos t)).
  set (input := in_ l) in *.
  (* the end of the line *)
  assert (∃ i : nat,
            line_end input (pos t) = Z.of_nat i ∧ p ≤ i ≤ length input ∧
            (newline ∉ take (i - p) (drop p input)) ∧
            (i = length input ∨ input !! i = Some newline))
    as (i & Ei & Hi & Hi_nl & Hi_end).
  { unfold line_end. fold p.
    destruct (decide (IndexByte (drop p input) newline = -1)%Z) as [E|E].
    - exists (length input). unfold golen.
      split_and!; [done|lia|lia| |by left].
      apply IndexByte_absent in E. intros Hin. apply E.
      apply list_elem_of_lookup in Hin as [k Hk].
      apply lookup_take_Some in Hk as [Hk _].
      by eapply list_elem_of_lookup_2.
    - destruct (IndexByte_present _ _ E) as ((H0 & H1) & H2 & H3).
      unfold golen in H1. rewrite length_drop in H1.
      exists (p + Z.to_nat (IndexByte (drop p input) newline)).
      unfold int_add. rewrite wrap_int_id by lia.
      split_and!; [lia|lia|lia| |right].
      + by replace (p + Z.to_nat (IndexByte (drop p input) newline) - p)
          with (Z.to_nat (IndexByte (drop p input) newline)) by lia.
      + by rewrite lookup_drop in H2. }
  (* the start of the line *)
  assert (∃ j : nat,
            line_start input (pos t) = Z.of_nat j ∧ j ≤ p ∧
            (newline ∉ drop j (take p input)) ∧
            (j = 0 ∨ input !! (j - 1) = Some newline))
    as (j & Ej & Hj & Hj_nl & Hj_start).
  { unfold line_start. fold p.
    destruct (decide (LastIndexByte (take p input) newline = -1)%Z) as [E|E].
    - exists 0. rewrite E. split_and!; [done|lia| |by left].
      rewrite drop_0. by apply LastIndexByte_absent.
    - destruct (LastIndexByte_present _ _ E) as ((H0 & H1) & H2 & H3).
      unfold golen in H1. rewrite length_take in H1.
      exists (S (Z.to_nat (LastIndexByte (take p input) newline))).
      unfold int_add. rewrite wrap_int_id by lia.
      split_and!; [lia|lia|done|right].
      cbn. rewrite Nat.sub_0_r.
      by apply lookup_take_Some in H2 as [H2 _]. }
  rewrite Ei, Ej.
  rewrite slice_to_in_range by (unfold golen; lia). cbn.
  rewrite Nat2Z.id.
  unfold int_sub. rewrite wrap_int_id by lia.
  rewrite Repeat_space by lia. cbn.
  replace (Z.to_nat (pos t - Z.of_nat j)) with (p - j) by lia.
  exists i, j. split_and!; [done|lia|lia|lia| |done|done].
  replace i with (p + (i - p)) at 1 by lia.
  rewrite <- take_take_drop.
  rewrite drop_app_le by (rewrite length_take; lia).
  rewrite not_elem_of_app. done.
Qed.

(** X17.  With the last token placed inside the input, [Error] never
    panics, whether an error was recorded before or not: it records the
    message, which is the text of the token when the scanner flagged it as
    ERROR and otherwise [e] followed by the quoted text of the token; it
    clears the hint and the unimplemented feature; it changes nothing else
    of the lexer. *)
Theorem Error_records e l t :
  lastToken l = Some t →
  (0 ≤ pos t ≤ golen (in_ l))%Z → (golen (in_ l) ≤ maxInt)%Z →
  ∃ d,
    Error e l =
      Some (set_lastError l
              (Some (ParseErr
                       (if decide (id t = ERROR) then str t
                        else e ++ lit " at or near " ++ [quote] ++
                             str t ++ [quote])
                       [] d []))).
Proof.
  intros Ht Hp Hmax.
  destruct (Error_eval e l t Ht Hp Hmax) as (i & j & -> & _).
  by eexists.
Qed.

(** X18.  The detail [Error] records shows the input from its start to the
    end of the line of the last token, and under it a caret at the column
    of the token: the shown text stops at the end of the input or just
    before a newline, the last line shown starts at the start of the
    input or just after a newline and contains no newline, and the caret
    is preceded by as many spaces as there are bytes from the start of
    that line to the token. *)
Theorem Error_detail_layout e l t :
  lastToken l = Some t →
  (0 ≤ pos t ≤ golen (in_ l))%Z → (golen (in_ l) ≤ maxInt)%Z →
  ∃ l' err (i j : nat),
    Error e l = Some l' ∧ lastError l' = Some err ∧
    detail err =
      lit "source SQL:" ++ [newline] ++ take i (in_ l) ++ [newline] ++
      replicate (Z.to_nat (pos t) - j) space ++ lit "^" ∧
    (j ≤ Z.to_nat (pos t) ≤ i) ∧ i ≤ length (in_ l) ∧
    (newline ∉ drop j (take i (in_ l))) ∧
    (j = 0 ∨ in_ l !! (j - 1) = Some newline) ∧
    (i = length (in_ l) ∨ in_ l !! i = Some newline).
Proof.
  intros Ht Hp Hmax.
  destruct (Error_eval e l t Ht Hp Hmax)
    as (i & j & E & H1 & H2 & H3 & H4 & H5).
  eexists _, _, i, j. split; [exact E|].
  split; [reflexivity|]. split; [reflexivity|]. auto.
Qed.

(** X19.  With the last token placed outside the input, before its start
    or beyond its end, [Error] panics on slicing the input. *)
Theorem Error_panics_outside_input e l t :
  lastToken l = Some t →
  ¬ (0 ≤ pos t ≤ golen (in_ l))%Z →
  Error e l = None.
Proof.
  intros Ht Hp. rewrite Error_unfold, Ht. cbn.
  unfold slice_from. by rewrite decide_False.
Qed.

(** X20.  [Error] overwrites the whole error record: with the last token
    placed inside the input it returns, and what it leaves does not depend
    on the error recorded before, so nothing of an earlier message, hint,
    detail or unimplemented feature survives. *)
Theorem Error_forgets_previous e l t previous :
  lastToken l = Some t →
  (0 ≤ pos t ≤ golen (in_ l))%Z → (golen (in_ l) ≤ maxInt)%Z →
  ∃ l', Error e l = Some l' ∧
        Error e (set_lastError l previous) = Some l'.
Proof.
  intros Ht Hp Hmax.
  destruct (Error_eval e l t Ht Hp Hmax) as (i & j & E & _).
  eexists. split; [exact E|]. rewrite <- E.
  rewrite !Error_unfold.
  assert (lastToken (set_lastError l previous) = lastToken l) as -> by done.
  rewrite Ht. cbn.
  repeat (match goal with
          | |- context [mbind _ ?x] => destruct x; cbn; [|done]
          end).
  done.
Qed.

(** X21.  [Error] before the first call of [Lex] takes the zero token as
    the last one: when ERROR is not identifier 0, the message is [e]
    followed by an empty quoted text, and the detail shows the first line
    of the input with the caret in its first column. *)
Theorem Error_before_first_Lex e l :
  lastPos l = (-1)%Z → ERROR ≠ 0%Z → (golen (in_ l) ≤ maxInt)%Z →
  ∃ i : nat,
    Error e l =
      Some (set_lastError l
              (Some (ParseErr (e ++ lit " at or near " ++ [quote; quote]) []
                       (lit "source SQL:" ++ [newline] ++
                        take i (in_ l) ++ [newline] ++ lit "^") []))) ∧
    (newline ∉ take i (in_ l)) ∧
    (i = length (in_ l) ∨ in_ l !! i = Some newline).
Proof.
  intros Hpos Hne Hmax.
  assert (lastToken l = Some (SqlSym 0 0 [] zero_value)) as Ht.
  { unfold lastToken. by rewrite Hpos. }
  destruct (Error_eval e l _ Ht) as (i & j & E & Hj & _ & Hnl & _ & Hi);
    [cbn; unfold golen; lia|done|].
  cbn in Hj. assert (j = 0) as -> by lia. rewrite drop_0 in Hnl.
  exists i. split_and!; [|done..]. rewrite E. unfold error_msg. cbn.
  by rewrite decide_False by congruence.
Qed.

End Lexing.

Section ErrorWrappers.
Context {SymUnion TInt TSerial Statement HelpMessage : Type}.
Context `{!TokenIDs} `{!ZeroValue SymUnion} `{!FormatInt}.
Context `{!HelpMessageOps HelpMessage}.
Implicit Types (l : lexer SymUnion TInt TSerial Statement).
Implicit Types (t : sqlSymType SymUnion).

(** ** The [Unimplemented] methods and [SetHelp] *)

(** X22.  With the last token inside the input, the three
    [Unimplemented] methods never panic and record the message and the
    detail that [Error("unimplemented")] records; they differ in the
    rest: [Unimplemented] records the feature and no hint, the two
    methods with an issue number record a hint with the URL of the issue
    and the feature [#issue], followed by a dot and the detail text for
    [UnimplementedWithIssueDetail]. *)
Theorem Unimplemented_records feature issue text l t :
  lastToken l = Some t →
  (0 ≤ pos t ≤ golen (in_ l))%Z → (golen (in_ l) ≤ maxInt)%Z →
  ∃ m d,
    Error (lit "unimplemented") l =
      Some (set_lastError l (Some (ParseErr m [] d []))) ∧
    Unimplemented feature l =
      Some (set_lastError l (Some (ParseErr m [] d feature))) ∧
    UnimplementedWithIssue issue l =
      Some (set_lastError l
              (Some (ParseErr m (issue_url ++ Sprintf_d issue) d
                       (lit "#" ++ Sprintf_d issue)))) ∧
    UnimplementedWithIssueDetail issue text l =
      Some (set_lastError l
              (Some (ParseErr m (issue_url ++ Sprintf_d issue) d
                       (lit "#" ++ Sprintf_d issue ++ lit "." ++ text)))).
Proof.
  intros Ht Hp Hmax.
  destruct (Error_eval (lit "unimplemented") l t Ht Hp Hmax)
    as (i & j & E & _).
  unfold Unimplemented, UnimplementedWithIssue,
    UnimplementedWithIssueDetail.
  rewrite E. by eexists _, _.
Qed.

(** X23.  After a syntax error, [SetHelp] on a last token that is not the
    help token keeps the message and the detail [Error] recorded and only
    sets the hint: to the command of the help message when it has one, to
    its function otherwise. *)
Theorem SetHelp_keeps_error e m l t :
  lastToken l = Some t → id t ≠ HELPTOKEN →
  (0 ≤ pos t ≤ golen (in_ l))%Z → (golen (in_ l) ≤ maxInt)%Z →
  ∃ l1 err,
    Error e l = Some l1 ∧ lastError l1 = Some err ∧
    SetHelp m l1 =
      Some (set_lastError l
              (Some (ParseErr (msg err)
                       (if decide (Command m ≠ [])
                        then lit "try \h " ++ Command m
                        else lit "try \hf " ++ Function m)
                       (detail err) []))).
Proof.
  intros Ht Hid Hp Hmax.
  destruct (Error_eval e l t Ht Hp Hmax) as (i & j & E & _).
  eexists _, _. split; [exact E|]. split; [reflexivity|].
  unfold SetHelp.
  assert (∀ x, lastToken (set_lastError l x) = lastToken l) as -> by done.
  rewrite Ht. cbn [mbind option_bind]. rewrite decide_False by done.
  by destruct (decide (Command m ≠ [])).
Qed.

(** X24.  On the help token [SetHelp] never panics: it records the
    message "help token in input" and the text of the help message as the
    hint and clears the unimplemented feature, but it leaves the detail
    of an earlier error in place. *)
Theorem SetHelp_on_help_token m l t :
  lastToken l = Some t → id t = HELPTOKEN →
  SetHelp m l =
    Some (set_lastError l
            (Some (ParseErr (lit "help token in input")
                     (HelpMessage_String m)
                     (default [] (detail <$> lastError l)) []))).
Proof.
  intros Ht Hid. unfold SetHelp. rewrite Ht. cbn [mbind option_bind].
  rewrite decide_True by done.
  unfold populateHelpMsg, initLastErr.
  by destruct (lastError l) eqn:E; unfold update_lastError; cbn; rewrite ?E.
Qed.

End ErrorWrappers.

(** ** The theorems at concrete inputs *)

Section Examples.
Import LexerExample.
#[local] Existing Instances token_ids no_payload decimal help_ops.

Ltac by_eval := repeat split; by vm_compute.

Lemma Lex_step_witness :
  ∃ r lval',
    Lex lval0 (lexer_at 3) = Some (r, lval', set_lastPos (lexer_at 3) (3 + 1))
    ∧ r = id lval' ∧
    match tokens (lexer_at 3) !! Z.to_nat (3 + 1) with
    | None =>
        lval' = SqlSym 0 (golen (in_ (lexer_at 3))) (lit "EOF") (union lval0)
    | Some t =>
        lval' = SqlSym
                  (lookahead (id t)
                     (default 0%Z
                        (id <$> tokens (lexer_at 3) !! S (Z.to_nat (3 + 1)))))
                  (pos t) (str t) (union t)
    end.
Proof. apply (Lex_step lval0 (lexer_at 3)); by_eval. Defined.

Lemma Lex_stream_witness :
  ∃ lval',
    Lex_times (length (tokens (lexer_at (-1)))) lval0 (lexer_at (-1)) =
      Some (lookahead_ids (tokens (lexer_at (-1))), lval',
            set_lastPos (lexer_at (-1))
              (golen (tokens (lexer_at (-1))) - 1)).
Proof. apply (Lex_stream lval0 (lexer_at (-1))); by_eval. Defined.

Lemma Lex_exhausted_witness :
  Lex_times 3 lval0 (lexer_at 6) =
    Some (replicate 3 0%Z,
          SqlSym 0 (golen (in_ (lexer_at 6))) (lit "EOF") (union lval0),
          set_lastPos (lexer_at 6) (6 + Z.of_nat 3)).
Proof. apply (Lex_exhausted 3 lval0 (lexer_at 6)); by_eval. Defined.

Lemma lastToken_after_Lex_witness :
  ∃ r lval' l' t,
    Lex lval0 (lexer_at 3) = Some (r, lval', l') ∧ lastToken l' = Some t ∧
    pos t = pos lval' ∧ str t = str lval' ∧
    (id t = r ∨ (r = NOT_LA ∧ id t = NOT) ∨ (r = WITH_LA ∧ id t = WITH) ∨
     (r = AS_LA ∧ id t = AS)).
Proof. apply (lastToken_after_Lex lval0 (lexer_at 3)); by_eval. Defined.

Lemma Lex_last_token_witness :
  Lex lval0 lexer_ending_in_NOT =
    Some (NOT, SqlSym NOT 2 (lit "NOT") tt,
          set_lastPos lexer_ending_in_NOT (0 + 1)).
Proof.
  apply (Lex_last_token lval0 lexer_ending_in_NOT
           (SqlSym NOT 2 (lit "NOT") tt)); try by_eval.
  repeat constructor; by vm_compute.
Defined.

Lemma init_then_Lex_witness :
  lastError (init (lexer_at 4) sql sql_tokens tt tt) = None ∧
  ∃ lval',
    Lex_times (length sql_tokens + 2) lval0
      (init (lexer_at 4) sql sql_tokens tt tt)
    = Some (lookahead_ids sql_tokens ++ replicate 2 0%Z, lval',
            set_lastPos (init (lexer_at 4) sql sql_tokens tt tt)
              (golen sql_tokens + Z.of_nat 2 - 1)).
Proof.
  apply (init_then_Lex 2 lval0 (lexer_at 4) sql sql_tokens tt tt); by_eval.
Defined.

Lemma Error_records_witness :
  ∃ d,
    Error (lit "syntax error") (lexer_at 4) =
      Some (set_lastError (lexer_at 4)
              (Some (ParseErr
                       (lit "syntax error" ++ lit " at or near " ++
                        [quote] ++ lit "NOT" ++ [quote])
                       [] d []))).
Proof.
  destruct (Error_records (lit "syntax error") (lexer_at 4)
              (SqlSym NOT 17 (lit "NOT") tt)) as [d E]; [by_eval..|].
  exists d. exact E.
Defined.

Lemma Error_detail_layout_witness :
  ∃ l' err (i j : nat),
    Error (lit "syntax error") (lexer_at 4) = Some l' ∧
    lastError l' = Some err ∧
    detail err =
      lit "source SQL:" ++ [newline] ++ take i sql ++ [newline] ++
      replicate (17 - j) space ++ lit "^" ∧
    (j ≤ 17 ≤ i) ∧ i ≤ length sql ∧
    (newline ∉ drop j (take i sql)) ∧
    (j = 0 ∨ sql !! (j - 1) = Some newline) ∧
    (i = length sql ∨ sql !! i = Some newline).
Proof.
  apply (Error_detail_layout (lit "syntax error") (lexer_at 4)
           (SqlSym NOT 17 (lit "NOT") tt)); by_eval.
Defined.

Lemma Error_panics_outside_input_witness :
  Error (lit "syntax error") lexer_outside = None.
Proof.
  apply (Error_panics_outside_input (lit "syntax error") lexer_outside
           (SqlSym IDENT 5 (lit "x") tt)); [by_eval|].
  vm_compute. by intros [_ H].
Defined.

Lemma Error_forgets_previous_witness :
  ∃ l',
    Error (lit "syntax error") (lexer_at 4) = Some l' ∧
    Error (lit "syntax error")
      (set_lastError (lexer_at 4)
         (Some (ParseErr (lit "unimplemented") (lit "See: issue")
                  (lit "source SQL:") (lit "feature")))) = Some l'.
Proof.
  apply (Error_forgets_previous (lit "syntax error") (lexer_at 4)
           (SqlSym NOT 17 (lit "NOT") tt)); by_eval.
Defined.

Lemma Error_before_first_Lex_witness :
  ∃ i : nat,
    Error (lit "syntax error") (lexer_at (-1)) =
      Some (set_lastError (lexer_at (-1))
              (Some (ParseErr
                       (lit "syntax error" ++ lit " at or near " ++
                        [quote; quote]) []
                       (lit "source SQL:" ++ [newline] ++
                        take i sql ++ [newline] ++ lit "^") []))) ∧
    (newline ∉ take i sql) ∧
    (i = length sql ∨ sql !! i = Some newline).
Proof.
  apply (Error_before_first_Lex (lit "syntax error") (lexer_at (-1)));
    by_eval.
Defined.

Lemma Unimplemented_records_witness :
  ∃ m d,
    Error (lit "unimplemented") (lexer_at 4) =
      Some (set_lastError (lexer_at 4) (Some (ParseErr m [] d []))) ∧
    Unimplemented (lit "feature") (lexer_at 4) =
      Some (set_lastError (lexer_at 4)
              (Some (ParseErr m [] d (lit "feature")))) ∧
    UnimplementedWithIssue 123 (lexer_at 4) =
      Some (set_lastError (lexer_at 4)
              (Some (ParseErr m (issue_url ++ Sprintf_d 123%Z) d
                       (lit "#" ++ Sprintf_d 123%Z)))) ∧
    UnimplementedWithIssueDetail 123 (lit "x") (lexer_at 4) =
      Some (set_lastError (lexer_at 4)
              (Some (ParseErr m (issue_url ++ Sprintf_d 123%Z) d
                       (lit "#" ++ Sprintf_d 123%Z ++ lit "." ++ lit "x")))).
Proof.
  apply (Unimplemented_records (lit "feature") 123 (lit "x") (lexer_at 4)
           (SqlSym NOT 17 (lit "NOT") tt)); by_eval.
Defined.

Lemma SetHelp_keeps_error_witness :
  ∃ l1 err,
    Error (lit "syntax error") (lexer_at 4) = Some l1 ∧
    lastError l1 = Some err ∧
    SetHelp help_select l1 =
      Some (set_lastError (lexer_at 4)
              (Some (ParseErr (msg err)
                       (if decide (Command help_select ≠ [])
                        then lit "try \h " ++ Command help_select
                        else lit "try \hf " ++ Function help_select)
                       (detail err) []))).
Proof.
  apply (SetHelp_keeps_error (lit "syntax error") help_select (lexer_at 4)
           (SqlSym NOT 17 (lit "NOT") tt)); by_eval.
Defined.

Lemma SetHelp_on_help_token_witness :
  SetHelp help_select lexer_help =
    Some (set_lastError lexer_help
            (Some (ParseErr (lit "help token in input")
                     (HelpMessage_String help_select)
                     (default [] (detail <$> lastError lexer_help)) []))).
Proof.
  apply (SetHelp_on_help_token help_select lexer_help
           (SqlSym HELPTOKEN 7 (lit "??") tt)); by_eval.
Defined.

End Examples.
End LexerProofs.
